(** * zoomcalib: camera calibration from planar homographies

    A shallow embedding of [refine_homography.py] (closed-form intrinsics,
    extrinsics recovery, Euler-angle conversions, single-view refinement)
    and of [refine_homographies2.py] (parameter nodes, homography
    constraints, the constraint graph and its state vector).

    Numbers are real numbers: the arithmetic of the program is read in
    exact arithmetic.  Where the program only moves numbers around
    (packing and unpacking the state vector) the scalar type is left
    abstract, so those results hold for the 64-bit floats of the program
    as well.  Python exceptions are explicit results.

    numpy divides by zero without raising (it warns and yields inf or
    nan); the quotient of the reals by zero is a real number instead.
    Every statement below that depends on the value of a quotient assumes
    its divisor is not zero. *)

From Stdlib Require Import String Reals List Lia Lra Bool Arith.
Import ListNotations.
Open Scope R_scope.

(** ** Exceptions *)

Inductive exn : Type :=
| IntrinsicsEstimationError   (* class IntrinsicsEstimationError(RuntimeError) *)
| AssertionError
| ValueError                  (* math domain error, bad unpacking, empty hstack, bad reshape *)
| LinAlgError                 (* singular matrix *)
| NameError (name : string)
| TypeError
| IndexError.

Inductive result (A : Type) : Type :=
| Ok (a : A)
| Raise (e : exn).

Arguments Ok {A} a.
Arguments Raise {A} e.

Definition bind {A B : Type} (r : result A) (k : A -> result B) : result B :=
  match r with
  | Ok a => k a
  | Raise e => Raise e
  end.

Notation "x <- e ;; k" := (bind e (fun x => k))
  (at level 61, e at next level, right associativity).
Notation "e ;;; k" := (bind e (fun _ => k))
  (at level 61, right associativity).

(** ** Arrays

    A one-dimensional array is a list, a two-dimensional array is the list
    of its rows.  The operations below are those of numpy on arrays whose
    shapes conform; every call site has conforming shapes, either by
    construction or by an explicit shape test. *)

Definition vector : Type := list R.
Definition matrix : Type := list vector.

Definition has_shape (r c : nat) (M : matrix) : bool :=
  (length M =? r)%nat && forallb (fun row => (length row =? c)%nat) M.

(** [v[i]] and [M[i,j]] *)
Definition getv (v : vector) (i : nat) : R := nth i v 0.
Definition get (M : matrix) (i j : nat) : R := getv (nth i M []) j.

(** [M[:,j]] *)
Definition col (M : matrix) (j : nat) : vector := map (fun row => getv row j) M.

Definition ncols (M : matrix) : nat := length (hd [] M).

(** [M.T] *)
Definition transpose (M : matrix) : matrix := map (col M) (seq 0 (ncols M)).

Definition vdot (u v : vector) : R :=
  fold_right Rplus 0 (map (fun ab => fst ab * snd ab) (combine u v)).

(** [A.dot(B)] *)
Definition dot (A B : matrix) : matrix :=
  map (fun row => map (vdot row) (transpose B)) A.

(** element-wise operations *)
Definition vsub (u v : vector) : vector :=
  map (fun ab => fst ab - snd ab) (combine u v).
Definition msub (A B : matrix) : matrix :=
  map (fun ab => vsub (fst ab) (snd ab)) (combine A B).
Definition mmap (f : R -> R) (M : matrix) : matrix := map (map f) M.

(** [np.linalg.norm(v)] for a one-dimensional [v] *)
Definition norm (v : vector) : R := sqrt (vdot v v).

(** [np.cross(u, v)] for vectors of length three *)
Definition cross (u v : vector) : vector :=
  [ getv u 1 * getv v 2 - getv u 2 * getv v 1;
    getv u 2 * getv v 0 - getv u 0 * getv v 2;
    getv u 0 * getv v 1 - getv u 1 * getv v 0 ].

(** [np.eye(n)] *)
Definition eye (n : nat) : matrix :=
  map (fun i => map (fun j => if (i =? j)%nat then 1 else 0) (seq 0 n)) (seq 0 n).

(** [np.diag(v)] for a one-dimensional [v] *)
Definition diag (v : vector) : matrix :=
  map (fun i => map (fun j => if (i =? j)%nat then getv v i else 0)
                    (seq 0 (length v)))
      (seq 0 (length v)).

(** [l[i] = x] *)
Fixpoint upd {A : Type} (i : nat) (x : A) (l : list A) : list A :=
  match l, i with
  | [], _ => []
  | _ :: t, O => x :: t
  | a :: t, S i' => a :: upd i' x t
  end.

(** [M[i,j] = x] *)
Definition set_entry (M : matrix) (i j : nat) (x : R) : matrix :=
  upd i (upd j x (nth i M [])) M.

(** [E[:3,j] = v] *)
Definition assign_col3 (E : matrix) (j : nat) (v : vector) : matrix :=
  set_entry (set_entry (set_entry E 0 j (getv v 0)) 1 j (getv v 1)) 2 j (getv v 2).

(** [E[:3,:3]] *)
Definition block33 (E : matrix) : matrix := map (firstn 3) (firstn 3 E).

(** [E[:3,:3] = B]: the first three entries of the first three rows are
    overwritten, everything else is kept. *)
Definition assign_block33 (E B : matrix) : matrix :=
  map (fun ir =>
         if (fst ir <? 3)%nat
         then [ get B (fst ir) 0; get B (fst ir) 1; get B (fst ir) 2 ]
              ++ skipn 3 (snd ir)
         else snd ir)
      (combine (seq 0 (length E)) E).

(** [np.delete(C, j, axis=1)] *)
Fixpoint delete_nth {A : Type} (j : nat) (l : list A) : list A :=
  match l, j with
  | [], _ => []
  | _ :: t, O => t
  | a :: t, S j' => a :: delete_nth j' t
  end.
Definition delete_col (C : matrix) (j : nat) : matrix := map (delete_nth j) C.

(** [math.sqrt]: raises [ValueError] (math domain error) below zero. *)
Definition math_sqrt (x : R) : result R :=
  if Rlt_dec x 0 then Raise ValueError else Ok (sqrt x).

(** [np.sqrt]: never raises.  Below zero numpy warns and yields nan; the
    reals have no such value, and nothing below depends on the number
    standing for it. *)
Definition np_sqrt (x : R) : R := sqrt x.

(** [np.linalg.inv] on a 3x3 array (the only shape it is called on):
    [LinAlgError] when the matrix is singular or not 3x3, otherwise the
    inverse, written as adjugate over determinant. *)
Definition det3 (A : matrix) : R :=
  get A 0 0 * (get A 1 1 * get A 2 2 - get A 1 2 * get A 2 1)
  - get A 0 1 * (get A 1 0 * get A 2 2 - get A 1 2 * get A 2 0)
  + get A 0 2 * (get A 1 0 * get A 2 1 - get A 1 1 * get A 2 0).

Definition adjugate3 (A : matrix) : matrix :=
  [ [ get A 1 1 * get A 2 2 - get A 1 2 * get A 2 1;
      get A 0 2 * get A 2 1 - get A 0 1 * get A 2 2;
      get A 0 1 * get A 1 2 - get A 0 2 * get A 1 1 ];
    [ get A 1 2 * get A 2 0 - get A 1 0 * get A 2 2;
      get A 0 0 * get A 2 2 - get A 0 2 * get A 2 0;
      get A 0 2 * get A 1 0 - get A 0 0 * get A 1 2 ];
    [ get A 1 0 * get A 2 1 - get A 1 1 * get A 2 0;
      get A 0 1 * get A 2 0 - get A 0 0 * get A 2 1;
      get A 0 0 * get A 1 1 - get A 0 1 * get A 1 0 ] ].

Definition inv (A : matrix) : result matrix :=
  if has_shape 3 3 A then
    if Req_dec_T (det3 A) 0 then Raise LinAlgError
    else Ok (mmap (fun x => x / det3 A) (adjugate3 A))
  else Raise LinAlgError.

(** [np.arctan2(y, x)]: the angle of the point [(x, y)], in [(-PI, PI]]. *)
Definition arctan2 (y x : R) : R :=
  if Rlt_dec 0 x then atan (y / x)
  else if Rlt_dec x 0 then
    (if Rle_dec 0 y then atan (y / x) + PI else atan (y / x) - PI)
  else if Rlt_dec 0 y then PI / 2
  else if Rlt_dec y 0 then - (PI / 2)
  else 0.

(** ** refine_homography.py *)

(** The singular value decomposition is numpy's: a function from an array
    to the triple [(U, s, Vt)].  It is a parameter of everything that
    calls it. *)
Section CameraMath.

Variable svd : matrix -> matrix * vector * matrix.

(** [Vt.T[:,-1]]: the last column of the transpose, that is the last row. *)
Definition last_right_singular (Vt : matrix) : vector := last Vt [].

Definition _check_homographies (homographies : list matrix) (nmin : nat)
  : result unit :=
  if negb (forallb (has_shape 3 3) homographies) then Raise AssertionError
  else if (length homographies <? nmin)%nat then Raise IntrinsicsEstimationError
  else Ok tt.

Definition _coeff_vec (H : matrix) (i j : nat) : result vector :=
  match col H i, col H j with
  | [a0; a1; a2], [b0; b1; b2] =>
      Ok [ a0*b0;
           a0*b1 + a1*b0;
           a1*b1;
           a2*b0 + a0*b2;
           a2*b1 + a1*b2;
           a2*b2 ]
  | _, _ => Raise ValueError
  end.

Definition _cam_matrix_from_B (b11 b12 b22 b13 b23 b33 : R) : result matrix :=
  let v0 := (b12*b13 - b11*b23) / (b11*b22 - b12*b12) in
  let lambda_ := b33 - (b13*b13 + v0*(b12*b13 - b11*b23)) / b11 in
  alpha <- math_sqrt (lambda_ / b11) ;;
  beta <- math_sqrt (lambda_*b11 / (b11*b22 - b12*b12)) ;;
  let gamma := -b12*alpha*alpha*beta / lambda_ in
  let u0 := gamma*v0 / beta - b13*alpha*alpha / lambda_ in
  Ok [ [ alpha; gamma; u0 ];
       [     0;  beta; v0 ];
       [     0;     0;  1 ] ].

(** The loop shared by [estimate_intrinsics] and
    [estimate_intrinsics_noskew]: two rows per homography. *)
Fixpoint conic_constraints (homographies : list matrix) (constraints : matrix)
  : result matrix :=
  match homographies with
  | [] => Ok constraints
  | H :: rest =>
      c01 <- _coeff_vec H 0 1 ;;
      c00 <- _coeff_vec H 0 0 ;;
      c11 <- _coeff_vec H 1 1 ;;
      conic_constraints rest (constraints ++ [c01] ++ [vsub c00 c11])
  end.

Definition estimate_intrinsics (homographies : list matrix) : result matrix :=
  _check_homographies homographies 2 ;;;
  constraints <- conic_constraints homographies [] ;;
  let constraints :=
    if (length homographies =? 2)%nat       (* constrain skew = 0 *)
    then constraints ++ [[0; 1; 0; 0; 0; 0]]
    else constraints in
  let C := constraints in
  let '(U, s, Vt) := svd C in
  match last_right_singular Vt with
  | [b11; b12; b22; b13; b23; b33] => _cam_matrix_from_B b11 b12 b22 b13 b23 b33
  | _ => Raise ValueError
  end.

Definition estimate_intrinsics_noskew (homographies : list matrix) : result matrix :=
  _check_homographies homographies 2 ;;;
  constraints <- conic_constraints homographies [] ;;
  let C := constraints in
  (* delete column corresponding to b12, since we know b12 == 0 *)
  let C := delete_col C 1 in
  let '(U, s, Vt) := svd C in
  match last_right_singular Vt with
  | [b11; b22; b13; b23; b33] =>
      let b12 := 0 in
      _cam_matrix_from_B b11 b12 b22 b13 b23 b33
  | _ => Raise ValueError
  end.

(** The two rows [estimate_intrinsics_noskew_assume_cxy] adds for one
    homography. *)
Definition cxy_rows (u0 v0 : R) (H : matrix) : result matrix :=
  match col H 0, col H 1 with
  | [h00; h10; h20], [h01; h11; h21] =>
      Ok [ [ h00*h01 - u0*h00*h21 - u0*h01*h20 + u0*u0*h20*h21;
             h10*h11 - v0*h10*h21 - v0*h11*h20 + v0*v0*h20*h21;
             h20*h21 ];
           [ h00*h00 - h01*h01 - 2*u0*h00*h20 + 2*u0*h01*h21
               + u0*u0*h20*h20 - u0*u0*h21*h21;
             h10*h10 - h11*h11 - 2*v0*h10*h20 + 2*v0*h11*h21
               + v0*v0*h20*h20 - v0*v0*h21*h21;
             h20*h20 - h21*h21 ] ]
  | _, _ => Raise ValueError
  end.

Fixpoint cxy_constraints (u0 v0 : R) (homographies : list matrix)
  (constraints : matrix) : result matrix :=
  match homographies with
  | [] => Ok constraints
  | H :: rest =>
      rows <- cxy_rows u0 v0 H ;;
      cxy_constraints u0 v0 rest (constraints ++ rows)
  end.

Definition estimate_intrinsics_noskew_assume_cxy
  (homographies : list matrix) (cxy : R * R) : result matrix :=
  _check_homographies homographies 1 ;;;
  let '(u0, v0) := cxy in
  constraints <- cxy_constraints u0 v0 homographies [] ;;
  let C := constraints in
  let '(U, s, Vt) := svd C in
  match map (fun x => np_sqrt (1 / x)) (last_right_singular Vt) with
  | [alpha; beta; _] =>
      Ok [ [ alpha;    0; u0 ];
           [     0; beta; v0 ];
           [     0;    0;  1 ] ]
  | _ => Raise ValueError
  end.

(** [get_extrinsics_from_homography], in three steps.

    [M0 = M[:,0]] and [M1 = M[:,1]] are views into [M], not copies: the
    in-place [M /= scale] and [M *= -1] change what they show.  Their
    norms are taken before the rescaling; the columns written into [E] are
    read after it. *)

(** Lines 153-165: [M], rescaled and with its sign settled. *)
Definition scaled_M (H intrinsics : matrix) : result matrix :=
  Kinv <- inv intrinsics ;;
  let M := dot Kinv H in
  (* Columns should be unit vectors *)
  let M0_scale := norm (col M 0) in
  let M1_scale := norm (col M 1) in
  s0 <- math_sqrt M0_scale ;;
  s1 <- math_sqrt M1_scale ;;
  let scale := s0 * s1 in
  let M := mmap (fun m => m / scale) M in                    (* M /= scale *)
  let M := if Rgt_dec (get M 1 2) 0
           then mmap (fun m => m * -1) M                     (* M *= -1 *)
           else M in
  Ok M.

(** Lines 168-172: the extrinsics assembled from the columns of [M]. *)
Definition assemble_E (M : matrix) : matrix :=
  let M0 := col M 0 in
  let M1 := col M 1 in
  let E := eye 4 in
  let E := assign_col3 E 0 M0 in
  let E := assign_col3 E 1 M1 in
  let E := assign_col3 E 2 (cross M0 M1) in
  let E := assign_col3 E 3 (col M 2) in
  E.

(** Lines 177-178: the rotation block replaced by [U.dot(Vt)]. *)
Definition orthonormalize (E : matrix) : matrix :=
  let '(U, s, Vt) := svd (block33 E) in
  assign_block33 E (dot U Vt).

Definition get_extrinsics_from_homography (H intrinsics : matrix)
  : result matrix :=
  M <- scaled_M H intrinsics ;;
  let E := assemble_E M in
  let E := orthonormalize E in
  Ok E.

Definition rotx (t : R) : matrix :=
  [ [ 1;     0;       0; 0 ];
    [ 0; cos t; - sin t; 0 ];
    [ 0; sin t;   cos t; 0 ];
    [ 0;     0;       0; 1 ] ].

Definition roty (t : R) : matrix :=
  [ [   cos t; 0; sin t; 0 ];
    [       0; 1;     0; 0 ];
    [ - sin t; 0; cos t; 0 ];
    [       0; 0;     0; 1 ] ].

Definition rotz (t : R) : matrix :=
  [ [ cos t; - sin t; 0; 0 ];
    [ sin t;   cos t; 0; 0 ];
    [     0;       0; 1; 0 ];
    [     0;       0; 0; 1 ] ].

Definition translate (x y z : R) : matrix :=
  [ [ 1; 0; 0; x ];
    [ 0; 1; 0; y ];
    [ 0; 0; 1; z ];
    [ 0; 0; 0; 1 ] ].

(** [reduce(f, [a, b, c, d])] is [f(f(f(a, b), c), d)]. *)
Definition reduce {A : Type} (f : A -> A -> A) (l : list A) (dflt : A) : A :=
  match l with
  | [] => dflt
  | a :: rest => fold_left f rest a
  end.

Definition _xyzrph_to_matrix (x y z r p h : R) : matrix :=
  reduce dot [ translate x y z; rotz h; roty p; rotx r ] [].

Definition _matrix_to_xyzrph (M : matrix) : result (R * R * R * R * R * R) :=
  let tx := get M 0 3 in
  let ty := get M 1 3 in
  let tz := get M 2 3 in
  let rx := arctan2 (get M 2 1) (get M 2 2) in
  s <- math_sqrt (get M 0 0 * get M 0 0 + get M 1 0 * get M 1 0) ;;
  let ry := arctan2 (- get M 2 0) s in
  let rz := arctan2 (get M 1 0) (get M 0 0) in
  Ok (tx, ty, tz, rx, ry, rz).

Definition _intrisics_to_matrix (fx fy cx cy : R) : matrix :=
  [ [ fx;  0; cx; 0 ];
    [  0; fy; cy; 0 ];
    [  0;  0;  1; 0 ] ].

Definition _matrix_to_intrinsics (K : matrix) : R * R * R * R :=
  (get K 0 0, get K 1 1, get K 0 2, get K 1 2).

(** [np.hstack([p, np.zeros((N,1)), np.ones((N,1))]).T]: the points of the
    world plane, one per column, in 3-D homogeneous form with z = 0. *)
Definition homogeneous_z0 (p : matrix) : matrix :=
  transpose (map (fun xy => xy ++ [0] ++ [1]) p).

(** [np.diag(1./row)] *)
Definition diag_recip (row : vector) : matrix := diag (map (fun w => 1 / w) row).

(** [sqerr.ravel()]: row after row. *)
Definition ravel (M : matrix) : vector := concat M.

Definition _reprojection_error (fx fy x y z r p h cx cy : R)
  (p_src p_tgt : matrix) (weights : option vector) : vector :=
  let K := _intrisics_to_matrix fx fy cx cy in
  let E := _xyzrph_to_matrix x y z r p h in
  let H := dot K E in
  (* convert to 3-D homogeneous form with z=0 *)
  let N := length p_src in
  let p_src := homogeneous_z0 p_src in
  let p_mapped := firstn 3 (dot H p_src) in
  (* normalize homogeneous coordinates *)
  let M := diag_recip (nth 2 p_mapped []) in
  let p_mapped := dot (firstn 2 p_mapped) M in
  let weights := match weights with
                 | None => repeat 1 N
                 | Some w => w
                 end in
  let W := diag weights in
  let p_tgt := transpose p_tgt in
  let sqerr := mmap (fun e => e * e) (msub p_mapped p_tgt) in
  ravel (dot sqerr W).

(** The names bound at the top level of [refine_homography.py], in the
    order of their binding (the names every module has, such as
    [__name__], aside), and the built-in names the module uses.  A name is
    looked up in the first, then in the second; Python's built-ins hold no
    name that starts with [estimate]. *)
Inductive global_value : Type :=
| Estimator (f : list matrix -> result matrix)
| EstimatorCxy (f : list matrix -> R * R -> result matrix)
| OtherObject.

Definition module_globals : list (string * global_value) :=
  [ ("sqrt", OtherObject);
    ("np", OtherObject);
    ("root", OtherObject);
    ("minimize", OtherObject);
    ("IntrinsicsEstimationError", OtherObject);
    ("_check_homographies", OtherObject);
    ("_coeff_vec", OtherObject);
    ("_cam_matrix_from_B", OtherObject);
    ("estimate_intrinsics", Estimator estimate_intrinsics);
    ("estimate_intrinsics_noskew", Estimator estimate_intrinsics_noskew);
    ("estimate_intrinsics_noskew_assume_cxy",
       EstimatorCxy estimate_intrinsics_noskew_assume_cxy);
    ("get_extrinsics_from_homography", OtherObject);
    ("_xyzrph_to_matrix", OtherObject);
    ("_matrix_to_xyzrph", OtherObject);
    ("_intrisics_to_matrix", OtherObject);
    ("_matrix_to_intrinsics", OtherObject);
    ("_reprojection_error", OtherObject);
    ("refine_homography", OtherObject);
    ("main", OtherObject) ]%string.

Definition builtins : list (string * global_value) :=
  [ ("all", OtherObject);
    ("len", OtherObject);
    ("reduce", OtherObject);
    ("tuple", OtherObject);
    ("int", OtherObject) ]%string.

Fixpoint lookup (name : string) (env : list (string * global_value))
  : option global_value :=
  match env with
  | [] => None
  | (n, v) :: rest => if String.eqb n name then Some v else lookup name rest
  end.

Definition load_global (name : string) : result global_value :=
  match lookup name module_globals with
  | Some v => Ok v
  | None =>
      match lookup name builtins with
      | Some v => Ok v
      | None => Raise (NameError name)
      end
  end.

(** Calling a global with a list of homographies and a centre. *)
Definition call_with_cxy (f : global_value) (hs : list matrix) (cxy : R * R)
  : result matrix :=
  match f with
  | EstimatorCxy g => g hs cxy
  | Estimator _ | OtherObject => Raise TypeError
  end.

(** [scipy.optimize.root(objective, x0, args, method='lm').x]: the solver
    is a parameter. *)
Variable root : (vector -> vector) -> vector -> vector.

Definition refine_homography (H0 : matrix) (cxy : R * R)
  (p_src p_tgt : matrix) (weights : option vector) : result matrix :=
  f <- load_global "estimate_intrinsics_assume_cxy_noskew" ;;
  K0 <- call_with_cxy f [H0] cxy ;;
  E0 <- get_extrinsics_from_homography H0 K0 ;;
  let '(fx, fy, cx, cy) := _matrix_to_intrinsics K0 in
  xyzrph <- _matrix_to_xyzrph E0 ;;
  let '(x, y, z, r, p, h) := xyzrph in
  let objective (theta : vector) : vector :=
    _reprojection_error (getv theta 0) (getv theta 1) (getv theta 2)
      (getv theta 3) (getv theta 4) (getv theta 5) (getv theta 6)
      (getv theta 7) cx cy p_src p_tgt weights in
  let x0 := [fx; fy; x; y; z; r; p; h] in
  let result_x := root objective x0 in
  match result_x with
  | [fx; fy; x; y; z; r; p; h] =>
      let K := _intrisics_to_matrix fx fy cx cy in
      let E := _xyzrph_to_matrix x y z r p h in
      let H := dot K E in
      Ok H
  | _ => Raise ValueError
  end.

End CameraMath.

(** ** refine_homographies2.py *)

(** Modelled from the spec: [camera_math], from which
    [refine_homographies2.py] imports [intrinsics_to_matrix] and
    [xyzrph_to_matrix], is not among the sources.  The spec gives the first
    as the 3x4 matrix [[fx,0,cx,0],[0,fy,cy,0],[0,0,1,0]] and the second as
    Translate(x,y,z) . RotateZ(h) . RotateY(p) . RotateX(r); these are what
    [_intrisics_to_matrix] and [_xyzrph_to_matrix] compute. *)
Definition intrinsics_to_matrix (fx fy cx cy : R) : matrix :=
  _intrisics_to_matrix fx fy cx cy.
Definition xyzrph_to_matrix (x y z r p h : R) : matrix :=
  _xyzrph_to_matrix x y z r p h.

(** Nodes are mutable objects that the graph and the constraints share by
    reference.  A reference is the identity of an object; the heap gives
    the object a reference denotes. *)
Definition ref : Type := nat.

Definition store {X : Type} (f : ref -> X) (r : ref) (x : X) : ref -> X :=
  fun r' => if (r' =? r)%nat then x else f r'.

Module IntrinsicsNode.
Section Scalars.
Context {A : Type}.

Record t : Type := __init__ { fx : A; fy : A; cx : A; cy : A; tag : string }.

Definition to_tuple (self : t) : list A :=
  [ fx self; fy self; cx self; cy self ].

(** [set_value(self, *tupl)]: reads [tupl[0]] to [tupl[3]]. *)
Definition set_value (self : t) (tupl : list A) : result t :=
  match tupl with
  | t0 :: t1 :: t2 :: t3 :: _ =>
      Ok {| fx := t0; fy := t1; cx := t2; cy := t3; tag := tag self |}
  | _ => Raise IndexError
  end.
End Scalars.
Arguments t : clear implicits.

Definition to_matrix (self : t R) : matrix :=
  intrinsics_to_matrix (fx self) (fy self) (cx self) (cy self).
End IntrinsicsNode.

Module ExtrinsicsNode.
Section Scalars.
Context {A : Type}.

Record t : Type :=
  __init__ { x : A; y : A; z : A; r : A; p : A; h : A; tag : string }.

Definition to_tuple (self : t) : list A :=
  [ x self; y self; z self; r self; p self; h self ].

Definition set_value (self : t) (tupl : list A) : result t :=
  match tupl with
  | t0 :: t1 :: t2 :: t3 :: t4 :: t5 :: _ =>
      Ok {| x := t0; y := t1; z := t2; r := t3; p := t4; h := t5;
            tag := tag self |}
  | _ => Raise IndexError
  end.
End Scalars.
Arguments t : clear implicits.

Definition to_matrix (self : t R) : matrix :=
  xyzrph_to_matrix (x self) (y self) (z self) (r self) (p self) (h self).
End ExtrinsicsNode.

Record Heap (A : Type) : Type := {
  inode_at : ref -> IntrinsicsNode.t A;
  enode_at : ref -> ExtrinsicsNode.t A
}.
Arguments inode_at {A} _ _.
Arguments enode_at {A} _ _.

Definition with_inode {A} (heap : Heap A) (r : ref) (n : IntrinsicsNode.t A)
  : Heap A :=
  {| inode_at := store (inode_at heap) r n; enode_at := enode_at heap |}.
Definition with_enode {A} (heap : Heap A) (r : ref) (n : ExtrinsicsNode.t A)
  : Heap A :=
  {| inode_at := inode_at heap; enode_at := store (enode_at heap) r n |}.

(** [np.hstack] of one-dimensional arrays: their concatenation.  numpy
    refuses an empty sequence: [ValueError], "need at least one array to
    concatenate" (early versions fail on it with an [IndexError]). *)
Definition hstack {A : Type} (arrs : list (list A)) : result (list A) :=
  match arrs with
  | [] => Raise ValueError
  | _ => Ok (concat arrs)
  end.

(** [np.reshape(v, (-1, k))]: rows of [k] entries; [ValueError] when the
    length of [v] is not a multiple of [k]. *)
Fixpoint chunks {A : Type} (fuel k : nat) (v : list A) : list (list A) :=
  match fuel, v with
  | O, _ | _, [] => []
  | S fuel', _ => firstn k v :: chunks fuel' k (skipn k v)
  end.

Definition reshape_rows {A : Type} (v : list A) (k : nat) : result (list (list A)) :=
  if (length v mod k =? 0)%nat then Ok (chunks (length v) k v)
  else Raise ValueError.

(** The homography model a constraint is built from: the correspondences
    [H_wi._corrs] and the weights [H_wi.get_correspondence_weights(c_w)],
    both supplied by collaborators outside the sources. *)
Record Correspondence : Type := { source : vector; target : vector }.

Record HomographyModel : Type := {
  _corrs : list Correspondence;
  get_correspondence_weights : vector
}.

Module HomographyConstraint.

Record t : Type := {
  p_src : matrix;
  p_tgt : matrix;
  W : matrix;
  inode : ref;
  enode : ref
}.

(** [np.hstack] of a list of points with the two columns of zeros and
    ones; with no point at all the dimensions disagree and numpy raises. *)
Definition __init__ (hmodel : HomographyModel) (inode enode : ref) : result t :=
  let weights := get_correspondence_weights hmodel in
  (* 3-D homogeneous form with z=0 *)
  let p_src := map source (_corrs hmodel) in
  let N := length p_src in
  match N with
  | O => Raise ValueError
  | _ =>
      let p_src := map (fun xy => xy ++ [0] ++ [1]) p_src in
      Ok {| p_src := transpose p_src;
            p_tgt := transpose (map target (_corrs hmodel));
            W := diag weights;
            inode := inode;
            enode := enode |}
  end.

Definition sq_unweighted_reprojection_errors (heap : Heap R) (self : t)
  : matrix :=
  let K := IntrinsicsNode.to_matrix (inode_at heap (inode self)) in
  let E := ExtrinsicsNode.to_matrix (enode_at heap (enode self)) in
  let H := dot K E in
  let p_mapped := firstn 3 (dot H (p_src self)) in
  (* normalize homogeneous coordinates *)
  let M := diag_recip (nth 2 p_mapped []) in
  let p_mapped := dot (firstn 2 p_mapped) M in
  mmap (fun e => e * e) (msub p_mapped (p_tgt self)).

(** [np.where(abserr <= delta, sqerr/2., delta*(abserr - delta/2.))] *)
Definition pseudo_huber_loss (sqerr abserr : vector) (delta : R) : vector :=
  map (fun sa => if Rle_dec (snd sa) delta
                 then fst sa / 2
                 else delta * (snd sa - delta / 2))
      (combine sqerr abserr).

Definition sq_errors (heap : Heap R) (self : t) : vector :=
  let sqerr := ravel (sq_unweighted_reprojection_errors heap self) in
  let abserr := map np_sqrt sqerr in
  pseudo_huber_loss sqerr abserr 1.

End HomographyConstraint.

Module ConstraintGraph.

(** The two [OrderedDict]s are lists of (tag, node) in insertion order;
    the nodes are references. *)
Record t : Type := {
  inodes : list (string * ref);
  enodes : list (string * ref);
  constraints : list HomographyConstraint.t
}.

Definition __init__ : t := {| inodes := []; enodes := []; constraints := [] |}.

(** [d.values()] *)
Definition values (d : list (string * ref)) : list ref := map snd d.

Definition constraint_errors (heap : Heap R) (self : t) : result vector :=
  hstack (map (HomographyConstraint.sq_errors heap) (constraints self)).

Section Scalars.
Context {A : Type}.

Definition _pack_into_vector (heap : Heap A) (self : t) : result (list A) :=
  istate <- hstack (map (fun i => IntrinsicsNode.to_tuple (inode_at heap i))
                        (values (inodes self))) ;;
  estate <- hstack (map (fun e => ExtrinsicsNode.to_tuple (enode_at heap e))
                        (values (enodes self))) ;;
  hstack [ istate; estate ].

(** [for inode, ival in zip(self.inodes.values(), istate):
       inode.set_value( *ival)] *)
Fixpoint set_inodes (heap : Heap A) (nodes : list ref) (rows : list (list A))
  : result (Heap A) :=
  match nodes, rows with
  | inode :: nodes', ival :: rows' =>
      n <- IntrinsicsNode.set_value (inode_at heap inode) ival ;;
      set_inodes (with_inode heap inode n) nodes' rows'
  | _, _ => Ok heap
  end.

Fixpoint set_enodes (heap : Heap A) (nodes : list ref) (rows : list (list A))
  : result (Heap A) :=
  match nodes, rows with
  | enode :: nodes', eval_ :: rows' =>
      n <- ExtrinsicsNode.set_value (enode_at heap enode) eval_ ;;
      set_enodes (with_enode heap enode n) nodes' rows'
  | _, _ => Ok heap
  end.

Definition _unpack_from_vector (heap : Heap A) (self : t) (v : list A)
  : result (Heap A) :=
  let N := length (inodes self) in
  istate <- reshape_rows (firstn (4 * N) v) 4 ;;
  estate <- reshape_rows (skipn (4 * N) v) 6 ;;
  heap <- set_inodes heap (values (inodes self)) istate ;;
  set_enodes heap (values (enodes self)) estate.


End Scalars.

End ConstraintGraph.

(** [objective] of [main], the function handed to the solver: it sets the
    state of the graph to [x] and returns the constraint errors. *)
Definition objective (heap : Heap R) (graph : ConstraintGraph.t) (x : vector)
  : result (Heap R * vector) :=
  heap <- ConstraintGraph._unpack_from_vector heap graph x ;;
  errors <- ConstraintGraph.constraint_errors heap graph ;;
  Ok (heap, errors).

(** * Notions and data used in the statements *)

(** The computation [r] raises no exception other than [e0]. *)
Definition raises_only (e0 : exn) {A : Type} (r : result A) : Prop :=
  forall e, r = Raise e -> e = e0.

(** A decomposition that returns empty arrays: the estimators reject
    its last row when they unpack it. *)
Definition svd_none : matrix -> matrix * vector * matrix :=
  fun _ => ([], [], []).

(** The homography and the constraint matrix of the case in which
    [estimate_intrinsics_noskew_assume_cxy] meets a negative value under
    its square root. *)
Definition H_mixed : matrix := [ [1; 1; 0]; [1; 1; 1]; [0; 1; 0] ].
Definition C_mixed : matrix := [ [1; 1; 0]; [0; 0; -1] ].

(** A decomposition whose last row of [Vt] is the null vector (1, -1, 0)
    of [C_mixed]. *)
Definition svd_mixed : matrix -> matrix * vector * matrix :=
  fun _ => ([ [1; 0]; [0; 1] ], [1; 1],
            [ [1; 1; 0]; [0; 0; 1]; [1; -1; 0] ]).

(** The rows [_pack_into_vector] stacks. *)
Definition ituples {A : Type} (heap : Heap A) (nodes : list ref) : list (list A) :=
  map (fun i => IntrinsicsNode.to_tuple (inode_at heap i)) nodes.
Definition etuples {A : Type} (heap : Heap A) (nodes : list ref) : list (list A) :=
  map (fun e => ExtrinsicsNode.to_tuple (enode_at heap e)) nodes.

(** Two heaps that hold the same node behind every reference. *)
Definition same_nodes {A : Type} (heap1 heap2 : Heap A) : Prop :=
  (forall i, inode_at heap1 i = inode_at heap2 i)
  /\ (forall e, enode_at heap1 e = enode_at heap2 e).

(** A heap in which every intrinsics node is the camera with focal
    lengths 800 and centre (320, 240) and every extrinsics node the pose
    one unit along z without rotation; and two small graphs: one node of
    each kind, and one intrinsics node entered under two tags. *)
Definition camera_heap : Heap R :=
  {| inode_at := fun _ => IntrinsicsNode.__init__ 800 800 320 240 "cam";
     enode_at := fun _ => ExtrinsicsNode.__init__ 0 0 1 0 0 0 "cam/pose0" |}.

Definition one_of_each : ConstraintGraph.t :=
  {| ConstraintGraph.inodes := [("cam"%string, 0%nat)];
     ConstraintGraph.enodes := [("cam/pose0"%string, 0%nat)];
     ConstraintGraph.constraints := [] |}.

Definition aliased_graph : ConstraintGraph.t :=
  {| ConstraintGraph.inodes := [("a"%string, 0%nat); ("b"%string, 0%nat)];
     ConstraintGraph.enodes := [("a/pose0"%string, 0%nat)];
     ConstraintGraph.constraints := [] |}.

(** Two constraints that differ at most in their weight matrix: the same
    source and target points, and nodes in the same state. *)
Definition differ_only_in_weights (heap1 heap2 : Heap R)
  (c1 c2 : HomographyConstraint.t) : Prop :=
  HomographyConstraint.p_src c1 = HomographyConstraint.p_src c2
  /\ HomographyConstraint.p_tgt c1 = HomographyConstraint.p_tgt c2
  /\ IntrinsicsNode.to_tuple (inode_at heap1 (HomographyConstraint.inode c1))
     = IntrinsicsNode.to_tuple (inode_at heap2 (HomographyConstraint.inode c2))
  /\ ExtrinsicsNode.to_tuple (enode_at heap1 (HomographyConstraint.enode c1))
     = ExtrinsicsNode.to_tuple (enode_at heap2 (HomographyConstraint.enode c2)).

(** Two constraints on the same points and the same node objects. *)
Definition same_but_W (c1 c2 : HomographyConstraint.t) : Prop :=
  HomographyConstraint.p_src c1 = HomographyConstraint.p_src c2
  /\ HomographyConstraint.p_tgt c1 = HomographyConstraint.p_tgt c2
  /\ HomographyConstraint.inode c1 = HomographyConstraint.inode c2
  /\ HomographyConstraint.enode c1 = HomographyConstraint.enode c2.

(** The corners of a square of side 1/10 as [camera_heap] sees them, and
    two constraints on them: once with unit weights and once with weights
    1, 2, 3, 4. *)
Definition square_corrs : list Correspondence :=
  [ {| source := [0; 0];       target := [320; 240] |};
    {| source := [1/10; 0];    target := [400; 240] |};
    {| source := [1/10; 1/10]; target := [400; 320] |};
    {| source := [0; 1/10];    target := [320; 320] |} ].

Definition unit_weighted : HomographyConstraint.t :=
  {| HomographyConstraint.p_src :=
       transpose (map (fun c => source c ++ [0] ++ [1]) square_corrs);
     HomographyConstraint.p_tgt := transpose (map target square_corrs);
     HomographyConstraint.W := diag [1; 1; 1; 1];
     HomographyConstraint.inode := 0%nat;
     HomographyConstraint.enode := 0%nat |}.

Definition ramp_weighted : HomographyConstraint.t :=
  {| HomographyConstraint.p_src :=
       transpose (map (fun c => source c ++ [0] ++ [1]) square_corrs);
     HomographyConstraint.p_tgt := transpose (map target square_corrs);
     HomographyConstraint.W := diag [1; 2; 3; 4];
     HomographyConstraint.inode := 0%nat;
     HomographyConstraint.enode := 0%nat |}.

Definition graph_of (c : HomographyConstraint.t) : ConstraintGraph.t :=
  {| ConstraintGraph.inodes := [("cam"%string, 0%nat)];
     ConstraintGraph.enodes := [("cam/pose0"%string, 0%nat)];
     ConstraintGraph.constraints := [c] |}.

(** The pseudo-Huber residual in the words of the specification: half the
    squared error up to the threshold, [delta * (err - delta/2)] beyond. *)
Definition is_pseudo_huber (delta sqerr_i residual_i : R) : Prop :=
  let err_i := sqrt sqerr_i in
  (err_i <= delta -> residual_i = sqerr_i / 2)
  /\ (~ err_i <= delta -> residual_i = delta * (err_i - delta / 2)).

(** [K^-1 H], the scale, and [M] after the rescaling and the sign test, as
    functions of the inputs. *)
Definition K_inv_H (H K : matrix) : matrix :=
  dot (mmap (fun x => x / det3 K) (adjugate3 K)) H.

Definition scale_of (M : matrix) : R :=
  sqrt (norm (col M 0)) * sqrt (norm (col M 1)).

Definition settled (M : matrix) : matrix :=
  let M' := mmap (fun m => m / scale_of M) M in
  if Rgt_dec (get M' 1 2) 0 then mmap (fun m => m * -1) M' else M'.

(** The sign the code settles on: -1 when the entry in row 1, column 2 of
    the rescaled matrix is positive, +1 otherwise. *)
Definition sign_of (M : matrix) : R :=
  if Rgt_dec (get M 1 2 / scale_of M) 0 then -1 else 1.

(** Two homographies for the identity intrinsics.  In the first the world
    origin lies at z = 1 and y = 0; in the second at z = -1 and y = 1. *)
Definition H_front : matrix := eye 3.
Definition H_flip : matrix := [ [1; 0; 0]; [0; 1; 1]; [0; 0; -1] ].

(** A decomposition for orthogonal arguments: [A = A . diag(1,1,1) . I]. *)
Definition svd_of_orthogonal : matrix -> matrix * vector * matrix :=
  fun A => (A, [1; 1; 1], eye 3).

(** The decomposition [I = I . diag(1,1,1) . I] of the identity. *)
Definition svd_identity : matrix -> matrix * vector * matrix :=
  fun _ => (eye 3, [1; 1; 1], eye 3).


(** The six entries [b11, b12, b22, b13, b23, b33] of a symmetric 3x3
    matrix, in the order the estimators use, and the matrix they stand
    for. *)
Definition conic_vector (B : matrix) : vector :=
  [ get B 0 0; get B 0 1; get B 1 1; get B 0 2; get B 1 2; get B 2 2 ].

Definition conic_matrix (b : vector) : matrix :=
  [ [ getv b 0; getv b 1; getv b 3 ];
    [ getv b 1; getv b 2; getv b 4 ];
    [ getv b 3; getv b 4; getv b 5 ] ].

(** [B.dot(u)] for a vector [u]. *)
Definition mvec (B : matrix) (u : vector) : vector := map (fun row => vdot row u) B.

(** The intrinsics matrix with focal lengths [alpha], [beta], skew [gamma]
    and centre [(u0, v0)], and [lam] times the image of the absolute conic
    [K^-T K^-1] it determines. *)
Definition K_of (alpha beta gamma u0 v0 : R) : matrix :=
  [ [ alpha; gamma; u0 ];
    [     0;  beta; v0 ];
    [     0;     0;  1 ] ].

Definition absolute_conic (lam : R) (K : matrix) : matrix :=
  let Kinv := mmap (fun x => x / det3 K) (adjugate3 K) in
  mmap (fun x => lam * x) (dot (transpose Kinv) Kinv).

(** [s * K.dot(M)]: a homography of the plane z = 0 as the camera [K]
    sees it, up to the scale [s]; the columns of [M] are the first two
    columns of the rotation and the translation of the pose. *)
Definition homography_of (s : R) (K M : matrix) : matrix :=
  mmap (fun x => s * x) (dot K M).

(** [H] is such a homography for a pose whose first two columns are
    orthogonal and of equal length. *)
Definition plane_view (K H : matrix) : Prop :=
  exists s M,
    has_shape 3 3 M = true
    /\ vdot (col M 0) (col M 1) = 0
    /\ vdot (col M 0) (col M 0) = vdot (col M 1) (col M 1)
    /\ H = homography_of s K M.


(** The rotations about the three axes as 3x3 matrices. *)
Definition rotx3 (t : R) : matrix := block33 (rotx t).
Definition roty3 (t : R) : matrix := block33 (roty t).
Definition rotz3 (t : R) : matrix := block33 (rotz t).

(** * Properties *)

(** Equations between arrays, entry by entry. *)
Ltac list_eq :=
  repeat match goal with
         | |- _ :: _ = _ :: _ => f_equal
         | |- Ok _ = Ok _ => f_equal
         end.

Ltac entrywise := cbn; list_eq; try ring.

(** ** Results and exceptions *)

Lemma raises_only_Ok (e0 : exn) {A : Type} (a : A) : raises_only e0 (Ok a).
Proof. intros e He. discriminate He. Qed.

Lemma raises_only_Raise (e0 : exn) {A : Type} :
  raises_only e0 (@Raise A e0).
Proof. intros e He. now inversion He. Qed.

Lemma raises_only_bind (e0 : exn) {A B : Type} (r : result A) (k : A -> result B) :
  raises_only e0 r -> (forall a, raises_only e0 (k a)) ->
  raises_only e0 (bind r k).
Proof.
  intros Hr Hk. destruct r as [a | e]; simpl.
  - apply Hk.
  - intros e' He. inversion He; subst e'. now apply Hr.
Qed.

Create HintDb raises.
#[local] Hint Resolve raises_only_Ok raises_only_Raise : raises.

Lemma math_sqrt_raises x : raises_only ValueError (math_sqrt x).
Proof. unfold math_sqrt. destruct (Rlt_dec x 0); auto with raises. Qed.

Lemma math_sqrt_nonneg x : 0 <= x -> math_sqrt x = Ok (sqrt x).
Proof.
  intros Hx. unfold math_sqrt. destruct (Rlt_dec x 0) as [Hneg | _]; [lra | reflexivity].
Qed.

Lemma math_sqrt_negative x : x < 0 -> math_sqrt x = Raise ValueError.
Proof.
  intros Hx. unfold math_sqrt. destruct (Rlt_dec x 0) as [_ | Hpos]; [reflexivity | lra].
Qed.

(** ** The intrinsics estimators *)

Lemma _coeff_vec_raises H i j : raises_only ValueError (_coeff_vec H i j).
Proof.
  unfold _coeff_vec.
  destruct (col H i) as [|a0 [|a1 [|a2 [|a3 ca]]]]; auto with raises.
  destruct (col H j) as [|b0 [|b1 [|b2 [|b3 cb]]]]; auto with raises.
Qed.

Lemma conic_constraints_raises hs :
  forall acc, raises_only ValueError (conic_constraints hs acc).
Proof.
  induction hs as [|H rest IH]; intros acc; simpl.
  - auto with raises.
  - repeat (apply raises_only_bind; [apply _coeff_vec_raises | intros ?]).
    apply IH.
Qed.

Lemma cxy_rows_raises u0 v0 H : raises_only ValueError (cxy_rows u0 v0 H).
Proof.
  unfold cxy_rows.
  destruct (col H 0) as [|a0 [|a1 [|a2 [|a3 ca]]]]; auto with raises.
  destruct (col H 1) as [|b0 [|b1 [|b2 [|b3 cb]]]]; auto with raises.
Qed.

Lemma cxy_constraints_raises u0 v0 hs :
  forall acc, raises_only ValueError (cxy_constraints u0 v0 hs acc).
Proof.
  induction hs as [|H rest IH]; intros acc; simpl.
  - auto with raises.
  - apply raises_only_bind; [apply cxy_rows_raises | intros rows]. apply IH.
Qed.

Lemma _cam_matrix_from_B_raises b11 b12 b22 b13 b23 b33 :
  raises_only ValueError (_cam_matrix_from_B b11 b12 b22 b13 b23 b33).
Proof.
  unfold _cam_matrix_from_B.
  repeat (apply raises_only_bind; [apply math_sqrt_raises | intros ?]).
  auto with raises.
Qed.

Lemma _check_homographies_shapes hs nmin :
  forallb (has_shape 3 3) hs = true ->
  _check_homographies hs nmin =
    if (length hs <? nmin)%nat then Raise IntrinsicsEstimationError else Ok tt.
Proof. intros Hs. unfold _check_homographies. now rewrite Hs. Qed.

(** Past the check, the three estimators raise nothing but [ValueError]. *)
Lemma estimate_intrinsics_tail_raises (svd : matrix -> matrix * vector * matrix) hs :
  raises_only ValueError
    (constraints <- conic_constraints hs [] ;;
     let constraints :=
       if (length hs =? 2)%nat then constraints ++ [[0; 1; 0; 0; 0; 0]]
       else constraints in
     let '(U, s, Vt) := svd constraints in
     match last_right_singular Vt with
     | [b11; b12; b22; b13; b23; b33] => _cam_matrix_from_B b11 b12 b22 b13 b23 b33
     | _ => Raise ValueError
     end).
Proof.
  apply raises_only_bind; [apply conic_constraints_raises | intros C]. cbv zeta.
  destruct (svd _) as [[U s] Vt].
  destruct (last_right_singular Vt) as [|a [|b [|c [|d [|e [|f [|g l]]]]]]];
    auto using _cam_matrix_from_B_raises with raises.
Qed.

Lemma estimate_intrinsics_noskew_tail_raises (svd : matrix -> matrix * vector * matrix) hs :
  raises_only ValueError
    (constraints <- conic_constraints hs [] ;;
     let '(U, s, Vt) := svd (delete_col constraints 1) in
     match last_right_singular Vt with
     | [b11; b22; b13; b23; b33] => _cam_matrix_from_B b11 0 b22 b13 b23 b33
     | _ => Raise ValueError
     end).
Proof.
  apply raises_only_bind; [apply conic_constraints_raises | intros C].
  destruct (svd _) as [[U s] Vt].
  destruct (last_right_singular Vt) as [|a [|b [|c [|d [|e [|f l]]]]]];
    auto using _cam_matrix_from_B_raises with raises.
Qed.

Lemma estimate_intrinsics_cxy_tail_raises
  (svd : matrix -> matrix * vector * matrix) hs u0 v0 :
  raises_only ValueError
    (constraints <- cxy_constraints u0 v0 hs [] ;;
     let '(U, s, Vt) := svd constraints in
     match map (fun x => np_sqrt (1 / x)) (last_right_singular Vt) with
     | [alpha; beta; _] =>
         Ok [ [ alpha; 0; u0 ]; [ 0; beta; v0 ]; [ 0; 0; 1 ] ]
     | _ => Raise ValueError
     end).
Proof.
  apply raises_only_bind; [apply cxy_constraints_raises | intros C].
  destruct (svd _) as [[U s] Vt].
  destruct (map _ (last_right_singular Vt)) as [|a [|b [|c [|d l]]]];
    auto with raises.
Qed.

(** C5. On a list of 3x3 homographies each estimator raises
    [IntrinsicsEstimationError] exactly when the list is shorter than its
    minimum: two for [estimate_intrinsics] and [estimate_intrinsics_noskew],
    one for [estimate_intrinsics_noskew_assume_cxy]. *)
Theorem estimators_raise_iff_too_few
  (svd : matrix -> matrix * vector * matrix)
  (homographies : list matrix) (cxy : R * R) :
  forallb (has_shape 3 3) homographies = true ->
  (estimate_intrinsics svd homographies = Raise IntrinsicsEstimationError
     <-> (length homographies < 2)%nat)
  /\ (estimate_intrinsics_noskew svd homographies = Raise IntrinsicsEstimationError
     <-> (length homographies < 2)%nat)
  /\ (estimate_intrinsics_noskew_assume_cxy svd homographies cxy
        = Raise IntrinsicsEstimationError
     <-> (length homographies < 1)%nat).
Proof.
  intros Hs. repeat split.
  - unfold estimate_intrinsics. rewrite (_check_homographies_shapes _ _ Hs).
    destruct (Nat.ltb_spec (length homographies) 2) as [Hlt | Hge]; [easy |].
    simpl. intros Hr. apply estimate_intrinsics_tail_raises in Hr. discriminate Hr.
  - intros Hlt. unfold estimate_intrinsics.
    rewrite (_check_homographies_shapes _ _ Hs).
    apply Nat.ltb_lt in Hlt. now rewrite Hlt.
  - unfold estimate_intrinsics_noskew. rewrite (_check_homographies_shapes _ _ Hs).
    destruct (Nat.ltb_spec (length homographies) 2) as [Hlt | Hge]; [easy |].
    simpl. intros Hr. apply estimate_intrinsics_noskew_tail_raises in Hr.
    discriminate Hr.
  - intros Hlt. unfold estimate_intrinsics_noskew.
    rewrite (_check_homographies_shapes _ _ Hs).
    apply Nat.ltb_lt in Hlt. now rewrite Hlt.
  - unfold estimate_intrinsics_noskew_assume_cxy.
    rewrite (_check_homographies_shapes _ _ Hs).
    destruct (Nat.ltb_spec (length homographies) 1) as [Hlt | Hge]; [easy |].
    simpl. destruct cxy as [u0 v0]. intros Hr.
    apply estimate_intrinsics_cxy_tail_raises in Hr. discriminate Hr.
  - intros Hlt. unfold estimate_intrinsics_noskew_assume_cxy.
    rewrite (_check_homographies_shapes _ _ Hs).
    apply Nat.ltb_lt in Hlt. now rewrite Hlt.
Qed.

Lemma estimators_raise_iff_too_few_witness :
  forallb (has_shape 3 3) [eye 3; eye 3] = true
  /\ (estimate_intrinsics svd_none [eye 3; eye 3] = Raise IntrinsicsEstimationError
        <-> (length [eye 3; eye 3] < 2)%nat)
  /\ (estimate_intrinsics_noskew svd_none [eye 3; eye 3]
        = Raise IntrinsicsEstimationError
        <-> (length [eye 3; eye 3] < 2)%nat)
  /\ (estimate_intrinsics_noskew_assume_cxy svd_none [eye 3; eye 3] (0, 0)
        = Raise IntrinsicsEstimationError
        <-> (length [eye 3; eye 3] < 1)%nat).
Proof.
  split; [reflexivity |].
  apply (estimators_raise_iff_too_few svd_none [eye 3; eye 3] (0, 0)).
  reflexivity.
Defined.

(** A negative value under [math.sqrt] in [_cam_matrix_from_B] is raised as
    [ValueError]: this is the path of [estimate_intrinsics] and
    [estimate_intrinsics_noskew]. *)
Lemma _cam_matrix_from_B_negative_alpha b11 b12 b22 b13 b23 b33 :
  let v0 := (b12*b13 - b11*b23) / (b11*b22 - b12*b12) in
  let lambda_ := b33 - (b13*b13 + v0*(b12*b13 - b11*b23)) / b11 in
  lambda_ / b11 < 0 ->
  _cam_matrix_from_B b11 b12 b22 b13 b23 b33 = Raise ValueError.
Proof.
  intros v0 lambda_ Hneg. unfold _cam_matrix_from_B.
  fold v0. fold lambda_. now rewrite (math_sqrt_negative _ Hneg).
Qed.

Lemma _cam_matrix_from_B_negative_beta b11 b12 b22 b13 b23 b33 :
  let v0 := (b12*b13 - b11*b23) / (b11*b22 - b12*b12) in
  let lambda_ := b33 - (b13*b13 + v0*(b12*b13 - b11*b23)) / b11 in
  lambda_ * b11 / (b11*b22 - b12*b12) < 0 ->
  _cam_matrix_from_B b11 b12 b22 b13 b23 b33 = Raise ValueError.
Proof.
  intros v0 lambda_ Hneg. unfold _cam_matrix_from_B.
  fold v0. fold lambda_. rewrite (math_sqrt_negative _ Hneg).
  destruct (math_sqrt (lambda_ / b11)) as [alpha | e] eqn:Halpha; simpl.
  - reflexivity.
  - now rewrite (math_sqrt_raises _ _ Halpha).
Qed.

Lemma H_mixed_invertible : has_shape 3 3 H_mixed = true /\ det3 H_mixed = -1.
Proof. split; [reflexivity |]. unfold det3. cbn. ring. Qed.

Lemma cxy_constraints_H_mixed :
  cxy_constraints 0 0 [H_mixed] [] = Ok C_mixed.
Proof.
  unfold C_mixed. cbn. list_eq; ring.
Qed.

(** C6. [estimate_intrinsics_noskew_assume_cxy] on the single homography
    [H_mixed] with centre (0, 0): the constraint matrix is [C_mixed], whose
    null vectors are the multiples of (1, -1, 0).  Whatever null vector the
    decomposition returns, one of the two values under the square root is
    negative, and the estimator returns a matrix all the same: no exception
    is raised. *)
Theorem assume_cxy_negative_radicand_returns
  (svd : matrix -> matrix * vector * matrix)
  (U : matrix) (s : vector) (Vt : matrix) (v0 v1 v2 : R) :
  svd C_mixed = (U, s, Vt) ->
  last_right_singular Vt = [v0; v1; v2] ->
  dot C_mixed (transpose [[v0; v1; v2]]) = [[0]; [0]] ->
  v0 <> 0 ->
  (1 / v0 < 0 \/ 1 / v1 < 0)
  /\ exists K,
       estimate_intrinsics_noskew_assume_cxy svd [H_mixed] (0, 0) = Ok K.
Proof.
  intros Hsvd Hlast Hnull Hv0. split.
  - cbn in Hnull. injection Hnull as Hrow1 Hrow2.
    assert (Hv1 : v1 = - v0) by lra.
    destruct (Rlt_dec v0 0) as [Hneg | Hpos].
    + left. unfold Rdiv. rewrite Rmult_1_l. now apply Rinv_lt_0_compat.
    + right. unfold Rdiv. rewrite Rmult_1_l. apply Rinv_lt_0_compat. lra.
  - unfold estimate_intrinsics_noskew_assume_cxy.
    replace (_check_homographies [H_mixed] 1) with (Ok tt) by reflexivity.
    cbn [bind]. rewrite cxy_constraints_H_mixed. cbn [bind].
    rewrite Hsvd, Hlast. cbn [map]. eexists. reflexivity.
Qed.

Lemma assume_cxy_negative_radicand_returns_witness :
  (1 / 1 < 0 \/ 1 / -1 < 0)
  /\ exists K,
       estimate_intrinsics_noskew_assume_cxy svd_mixed [H_mixed] (0, 0) = Ok K.
Proof.
  apply (assume_cxy_negative_radicand_returns svd_mixed
           [ [1; 0]; [0; 1] ] [1; 1] [ [1; 1; 0]; [0; 0; 1]; [1; -1; 0] ]
           1 (-1) 0).
  - reflexivity.
  - reflexivity.
  - cbn. list_eq; ring.
  - lra.
Defined.

(** ** Name resolution in [refine_homography] *)

(** C10. Every call of [refine_homography] raises [NameError]: its first
    statement loads the name [estimate_intrinsics_assume_cxy_noskew], which
    is bound neither in the module nor among the built-ins; the estimator
    the module defines is [estimate_intrinsics_noskew_assume_cxy]. *)
Theorem refine_homography_raises_NameError
  (svd : matrix -> matrix * vector * matrix)
  (root : (vector -> vector) -> vector -> vector)
  (H0 : matrix) (cxy : R * R) (p_src p_tgt : matrix) (weights : option vector) :
  refine_homography svd root H0 cxy p_src p_tgt weights
    = Raise (NameError "estimate_intrinsics_assume_cxy_noskew")
  /\ load_global svd "estimate_intrinsics_noskew_assume_cxy"
    = Ok (EstimatorCxy (estimate_intrinsics_noskew_assume_cxy svd)).
Proof. split; reflexivity. Qed.

(** ** The state vector of the constraint graph *)

Section StateVector.
Context {A : Type}.

Lemma firstn_row (row rest : list A) :
  firstn (length row) (row ++ rest) = row.
Proof.
  rewrite firstn_app, firstn_all, Nat.sub_diag, firstn_0. apply app_nil_r.
Qed.

Lemma skipn_row (row rest : list A) :
  skipn (length row) (row ++ rest) = rest.
Proof.
  rewrite skipn_app, skipn_all, Nat.sub_diag. reflexivity.
Qed.

Lemma chunks_concat (k : nat) (rows : list (list A)) :
  (0 < k)%nat ->
  Forall (fun row => length row = k) rows ->
  forall fuel, (length (concat rows) <= fuel)%nat ->
  chunks fuel k (concat rows) = rows.
Proof.
  intros Hk Hrows. induction Hrows as [|row rows Hrow Hrows IH]; intros fuel Hfuel.
  - destruct fuel; reflexivity.
  - simpl in Hfuel. rewrite length_app in Hfuel.
    destruct row as [|a row]; [simpl in Hrow; lia |].
    destruct fuel as [|fuel]; [simpl in Hfuel; lia |].
    simpl concat. cbn [chunks app].
    change (a :: row ++ concat rows) with ((a :: row) ++ concat rows).
    subst k. rewrite firstn_row, skipn_row.
    f_equal. apply IH. simpl in Hfuel. lia.
Qed.

Lemma concat_chunks (k : nat) :
  (0 < k)%nat ->
  forall fuel (v : list A), (length v <= fuel)%nat -> concat (chunks fuel k v) = v.
Proof.
  intros Hk. induction fuel as [|fuel IH]; intros v Hfuel.
  - destruct v; [reflexivity | simpl in Hfuel; lia].
  - destruct v as [|a v]; [reflexivity |].
    cbn [chunks concat]. rewrite IH.
    + apply firstn_skipn.
    + rewrite length_skipn. simpl length in *. lia.
Qed.

Lemma chunks_rows (k n : nat) :
  (0 < k)%nat ->
  forall fuel (v : list A), (length v <= fuel)%nat -> length v = (n * k)%nat ->
  length (chunks fuel k v) = n
  /\ Forall (fun row => length row = k) (chunks fuel k v).
Proof.
  intros Hk. induction n as [|n IH]; intros fuel v Hfuel Hlen.
  - destruct v; [| discriminate Hlen]. destruct fuel; simpl; auto.
  - destruct v as [|a v]; [simpl in Hlen; lia |].
    destruct fuel as [|fuel]; [simpl in Hfuel; lia |].
    cbn [chunks].
    assert (Hlen' : length (a :: v) = (k + n * k)%nat) by exact Hlen.
    destruct (IH fuel (skipn k (a :: v))) as [Hn Hall].
    + rewrite length_skipn. simpl length in *. lia.
    + rewrite length_skipn. lia.
    + split; [simpl; now rewrite Hn |].
      constructor; [| exact Hall].
      rewrite length_firstn. lia.
Qed.

Lemma reshape_rows_spec (v : list A) (k n : nat) :
  (0 < k)%nat -> length v = (n * k)%nat ->
  exists rows, reshape_rows v k = Ok rows
    /\ length rows = n
    /\ Forall (fun row => length row = k) rows
    /\ concat rows = v.
Proof.
  intros Hk Hlen. unfold reshape_rows.
  rewrite Hlen, Nat.Div0.mod_mul, Nat.eqb_refl, <- Hlen.
  exists (chunks (length v) k v).
  destruct (chunks_rows k n Hk (length v) v (le_n _) Hlen) as [Hn Hall].
  repeat split; auto. now apply concat_chunks.
Qed.

Lemma reshape_rows_concat (rows : list (list A)) (k : nat) :
  (0 < k)%nat -> Forall (fun row => length row = k) rows ->
  reshape_rows (concat rows) k = Ok rows.
Proof.
  intros Hk Hrows. unfold reshape_rows.
  assert (Hlen : length (concat rows) = (length rows * k)%nat).
  { induction Hrows as [|row rows Hrow _ IH]; [reflexivity |].
    simpl. rewrite length_app, IH, Hrow. lia. }
  rewrite Hlen, Nat.Div0.mod_mul, Nat.eqb_refl, <- Hlen.
  f_equal. now apply chunks_concat.
Qed.

Lemma ituples_rows (heap : Heap A) (nodes : list ref) :
  length (ituples heap nodes) = length nodes
  /\ Forall (fun row => length row = 4%nat) (ituples heap nodes).
Proof.
  unfold ituples. split; [apply length_map |].
  apply Forall_forall. intros row Hin. apply in_map_iff in Hin.
  destruct Hin as [i [<- _]]. reflexivity.
Qed.

Lemma etuples_rows (heap : Heap A) (nodes : list ref) :
  length (etuples heap nodes) = length nodes
  /\ Forall (fun row => length row = 6%nat) (etuples heap nodes).
Proof.
  unfold etuples. split; [apply length_map |].
  apply Forall_forall. intros row Hin. apply in_map_iff in Hin.
  destruct Hin as [e [<- _]]. reflexivity.
Qed.

(** Writing rows of four into the intrinsics nodes: no exception, the
    extrinsics nodes and every intrinsics node outside the list are left
    alone, and when no node occurs twice each node holds its row. *)
Lemma set_inodes_rows (nodes : list ref) :
  forall (rows : list (list A)) (heap : Heap A),
  Forall (fun row => length row = 4%nat) rows ->
  length rows = length nodes ->
  exists heap',
    ConstraintGraph.set_inodes heap nodes rows = Ok heap'
    /\ enode_at heap' = enode_at heap
    /\ (forall i, ~ In i nodes -> inode_at heap' i = inode_at heap i)
    /\ (NoDup nodes -> ituples heap' nodes = rows).
Proof.
  induction nodes as [|n nodes IH]; intros rows heap Hrows Hlen.
  - destruct rows; [| discriminate Hlen]. exists heap. simpl. auto.
  - destruct rows as [|row rows]; [discriminate Hlen |].
    inversion Hrows as [|? ? Hrow Hrows']; subst.
    destruct row as [|a [|b [|c [|d [|e row]]]]]; try discriminate Hrow.
    simpl.
    destruct (IH rows (with_inode heap n
                {| IntrinsicsNode.fx := a; IntrinsicsNode.fy := b;
                   IntrinsicsNode.cx := c; IntrinsicsNode.cy := d;
                   IntrinsicsNode.tag := IntrinsicsNode.tag (inode_at heap n) |})
                Hrows') as (heap' & Hset & He & Hframe & Hget).
    { simpl in Hlen. lia. }
    exists heap'. repeat split.
    + exact Hset.
    + exact He.
    + intros i Hi. rewrite Hframe by tauto. simpl. unfold store.
      destruct (Nat.eqb_spec i n) as [-> | _]; [tauto | reflexivity].
    + intros Hnd. inversion Hnd as [|? ? Hnotin Hnd']; subst.
      unfold ituples in *. simpl. rewrite (Hget Hnd'). f_equal.
      rewrite (Hframe n Hnotin). simpl. unfold store. now rewrite Nat.eqb_refl.
Qed.

Lemma set_enodes_rows (nodes : list ref) :
  forall (rows : list (list A)) (heap : Heap A),
  Forall (fun row => length row = 6%nat) rows ->
  length rows = length nodes ->
  exists heap',
    ConstraintGraph.set_enodes heap nodes rows = Ok heap'
    /\ inode_at heap' = inode_at heap
    /\ (forall e, ~ In e nodes -> enode_at heap' e = enode_at heap e)
    /\ (NoDup nodes -> etuples heap' nodes = rows).
Proof.
  induction nodes as [|n nodes IH]; intros rows heap Hrows Hlen.
  - destruct rows; [| discriminate Hlen]. exists heap. simpl. auto.
  - destruct rows as [|row rows]; [discriminate Hlen |].
    inversion Hrows as [|? ? Hrow Hrows']; subst.
    destruct row as [|a [|b [|c [|d [|e [|f [|g row]]]]]]]; try discriminate Hrow.
    simpl.
    destruct (IH rows (with_enode heap n
                {| ExtrinsicsNode.x := a; ExtrinsicsNode.y := b;
                   ExtrinsicsNode.z := c; ExtrinsicsNode.r := d;
                   ExtrinsicsNode.p := e; ExtrinsicsNode.h := f;
                   ExtrinsicsNode.tag := ExtrinsicsNode.tag (enode_at heap n) |})
                Hrows') as (heap' & Hset & Hi & Hframe & Hget).
    { simpl in Hlen. lia. }
    exists heap'. repeat split.
    + exact Hset.
    + exact Hi.
    + intros e' He'. rewrite Hframe by tauto. simpl. unfold store.
      destruct (Nat.eqb_spec e' n) as [-> | _]; [tauto | reflexivity].
    + intros Hnd. inversion Hnd as [|? ? Hnotin Hnd']; subst.
      unfold etuples in *. simpl. rewrite (Hget Hnd'). f_equal.
      rewrite (Hframe n Hnotin). simpl. unfold store. now rewrite Nat.eqb_refl.
Qed.

(** Writing back the tuples that were read changes no node, whether or not
    a node occurs twice. *)
Lemma set_inodes_same (heap0 : Heap A) (nodes : list ref) :
  forall heap : Heap A,
  (forall i, inode_at heap i = inode_at heap0 i) ->
  exists heap',
    ConstraintGraph.set_inodes heap nodes (ituples heap0 nodes) = Ok heap'
    /\ enode_at heap' = enode_at heap
    /\ (forall i, inode_at heap' i = inode_at heap0 i).
Proof.
  induction nodes as [|n nodes IH]; intros heap Hsame.
  - exists heap. simpl. auto.
  - simpl.
    edestruct IH as (heap' & Hset & He & Hi); [| exists heap'; eauto].
    intros i. simpl. unfold store.
    destruct (Nat.eqb_spec i n) as [-> | _]; [| apply Hsame].
    rewrite Hsame. now destruct (inode_at heap0 n).
Qed.

Lemma set_enodes_same (heap0 : Heap A) (nodes : list ref) :
  forall heap : Heap A,
  (forall e, enode_at heap e = enode_at heap0 e) ->
  exists heap',
    ConstraintGraph.set_enodes heap nodes (etuples heap0 nodes) = Ok heap'
    /\ inode_at heap' = inode_at heap
    /\ (forall e, enode_at heap' e = enode_at heap0 e).
Proof.
  induction nodes as [|n nodes IH]; intros heap Hsame.
  - exists heap. simpl. auto.
  - simpl.
    edestruct IH as (heap' & Hset & Hi & He); [| exists heap'; eauto].
    intros e. simpl. unfold store.
    destruct (Nat.eqb_spec e n) as [-> | _]; [| apply Hsame].
    rewrite Hsame. now destruct (enode_at heap0 n).
Qed.

Lemma hstack_nonempty (arrs : list (list A)) :
  arrs <> [] -> hstack arrs = Ok (concat arrs).
Proof. destruct arrs; [congruence | reflexivity]. Qed.

End StateVector.

Lemma length_values (d : list (string * ref)) :
  length (ConstraintGraph.values d) = length d.
Proof. apply length_map. Qed.

Lemma values_nonempty (d : list (string * ref)) :
  d <> [] -> ConstraintGraph.values d <> [].
Proof. destruct d; [congruence | discriminate]. Qed.

Lemma map_nonempty {X Y : Type} (f : X -> Y) (l : list X) :
  l <> [] -> map f l <> [].
Proof. destruct l; [congruence | discriminate]. Qed.

Lemma length_concat_rows {X : Type} (k : nat) (rows : list (list X)) :
  Forall (fun row => length row = k) rows ->
  length (concat rows) = (k * length rows)%nat.
Proof.
  induction 1 as [|row rows Hrow _ IH]; simpl; [lia |].
  rewrite length_app, IH, Hrow. lia.
Qed.

(** Packing a graph with at least one node of each kind. *)
Lemma pack_nonempty {A : Type} (heap : Heap A) (g : ConstraintGraph.t) :
  ConstraintGraph.inodes g <> [] -> ConstraintGraph.enodes g <> [] ->
  ConstraintGraph._pack_into_vector heap g
  = Ok (concat (ituples heap (ConstraintGraph.values (ConstraintGraph.inodes g)))
        ++ concat (etuples heap (ConstraintGraph.values (ConstraintGraph.enodes g)))).
Proof.
  intros Hi He. unfold ConstraintGraph._pack_into_vector.
  fold (ituples heap (ConstraintGraph.values (ConstraintGraph.inodes g))).
  fold (etuples heap (ConstraintGraph.values (ConstraintGraph.enodes g))).
  rewrite !hstack_nonempty
    by (apply map_nonempty, values_nonempty; assumption).
  simpl. now rewrite app_nil_r.
Qed.

(** C3, as the code has it.  For a graph with at least one intrinsics node
    and at least one extrinsics node: packing succeeds, the vector has
    length 4*I + 6*E, and unpacking it leaves every node as it was; and
    when no node object is entered twice in a dictionary, unpacking any
    vector of that length succeeds and packing again returns the vector.
    The scalar type is arbitrary: nothing is computed, scalars are only
    moved. *)
Theorem pack_unpack_round_trip {A : Type} (heap : Heap A) (g : ConstraintGraph.t) :
  ConstraintGraph.inodes g <> [] ->
  ConstraintGraph.enodes g <> [] ->
  let I := length (ConstraintGraph.inodes g) in
  let E := length (ConstraintGraph.enodes g) in
  (exists v heap',
      ConstraintGraph._pack_into_vector heap g = Ok v
      /\ length v = (4 * I + 6 * E)%nat
      /\ ConstraintGraph._unpack_from_vector heap g v = Ok heap'
      /\ same_nodes heap' heap)
  /\ (NoDup (ConstraintGraph.values (ConstraintGraph.inodes g)) ->
      NoDup (ConstraintGraph.values (ConstraintGraph.enodes g)) ->
      forall v, length v = (4 * I + 6 * E)%nat ->
      exists heap',
        ConstraintGraph._unpack_from_vector heap g v = Ok heap'
        /\ ConstraintGraph._pack_into_vector heap' g = Ok v).
Proof.
  intros Hi He I E.
  set (ins := ConstraintGraph.values (ConstraintGraph.inodes g)).
  set (ens := ConstraintGraph.values (ConstraintGraph.enodes g)).
  assert (HI : length ins = I) by apply length_values.
  assert (HE : length ens = E) by apply length_values.
  split.
  - destruct (ituples_rows heap ins) as [Hil Hi4].
    destruct (etuples_rows heap ens) as [Hel He6].
    exists (concat (ituples heap ins) ++ concat (etuples heap ens)).
    destruct (set_inodes_same heap ins heap (fun _ => eq_refl))
      as (heap1 & Hset1 & He1 & Hi1).
    destruct (set_enodes_same heap ens heap1) as (heap2 & Hset2 & Hi2 & He2).
    { intros e. now rewrite He1. }
    exists heap2.
    assert (Hlen_i : length (concat (ituples heap ins)) = (4 * I)%nat).
    { rewrite (length_concat_rows 4) by assumption. lia. }
    repeat split.
    + now apply pack_nonempty.
    + rewrite length_app, Hlen_i, (length_concat_rows 6) by assumption. lia.
    + unfold ConstraintGraph._unpack_from_vector. fold I.
      rewrite <- Hlen_i, firstn_row, skipn_row.
      rewrite (reshape_rows_concat _ 4) by (auto; lia).
      rewrite (reshape_rows_concat _ 6) by (auto; lia).
      cbn [bind]. fold ins. rewrite Hset1. cbn [bind]. fold ens. exact Hset2.
    + intros i. now rewrite Hi2.
    + exact He2.
  - intros Hndi Hnde v Hlen.
    destruct (reshape_rows_spec (firstn (4 * I) v) 4 I)
      as (irows & Hri & Hil & Hi4 & Hic); [lia | rewrite length_firstn; lia |].
    destruct (reshape_rows_spec (skipn (4 * I) v) 6 E)
      as (erows & Hre & Hel & He6 & Hec); [lia | rewrite length_skipn; lia |].
    destruct (set_inodes_rows ins irows heap Hi4) as (heap1 & Hset1 & He1 & _ & Hget1);
      [lia |].
    destruct (set_enodes_rows ens erows heap1 He6) as (heap2 & Hset2 & Hi2 & _ & Hget2);
      [lia |].
    exists heap2. split.
    + unfold ConstraintGraph._unpack_from_vector. fold I.
      rewrite Hri, Hre. cbn [bind]. fold ins. rewrite Hset1. cbn [bind].
      fold ens. exact Hset2.
    + rewrite pack_nonempty by assumption. fold ins. fold ens.
      rewrite (Hget2 Hnde). unfold ituples. rewrite Hi2. fold (ituples heap1 ins).
      rewrite (Hget1 Hndi), Hic, Hec. now rewrite firstn_skipn.
Qed.

Lemma pack_unpack_round_trip_witness :
  ConstraintGraph.inodes one_of_each <> []
  /\ ConstraintGraph.enodes one_of_each <> []
  /\ (exists v heap',
      ConstraintGraph._pack_into_vector camera_heap one_of_each = Ok v
      /\ length v = (4 * 1 + 6 * 1)%nat
      /\ ConstraintGraph._unpack_from_vector camera_heap one_of_each v = Ok heap'
      /\ same_nodes heap' camera_heap)
  /\ (NoDup [0%nat] -> NoDup [0%nat] ->
      forall v : list R, length v = (4 * 1 + 6 * 1)%nat ->
      exists heap',
        ConstraintGraph._unpack_from_vector camera_heap one_of_each v = Ok heap'
        /\ ConstraintGraph._pack_into_vector heap' one_of_each = Ok v).
Proof.
  split; [discriminate |]. split; [discriminate |].
  apply (pack_unpack_round_trip camera_heap one_of_each); discriminate.
Defined.

(** C3 as stated fails on two kinds of graph.  With no node at all the
    vector of length 4*0 + 6*0 unpacks, but packing raises [ValueError].
    With one intrinsics node under two tags, unpacking a vector of length
    4*2 + 6*1 writes the node twice, and packing returns the second row
    twice, not the vector. *)
Lemma pack_unpack_round_trip_counterexample :
  (exists heap',
      ConstraintGraph._unpack_from_vector camera_heap ConstraintGraph.__init__ []
        = Ok heap'
      /\ ConstraintGraph._pack_into_vector heap' ConstraintGraph.__init__
        = Raise ValueError)
  /\ (let v := [1; 2; 3; 4; 5; 6; 7; 8; 9; 10; 11; 12; 13; 14] in
      length v = (4 * length (ConstraintGraph.inodes aliased_graph)
                  + 6 * length (ConstraintGraph.enodes aliased_graph))%nat
      /\ exists heap',
           ConstraintGraph._unpack_from_vector camera_heap aliased_graph v = Ok heap'
           /\ ConstraintGraph._pack_into_vector heap' aliased_graph
              = Ok [5; 6; 7; 8; 5; 6; 7; 8; 9; 10; 11; 12; 13; 14]
           /\ ConstraintGraph._pack_into_vector heap' aliased_graph <> Ok v).
Proof.
  split.
  - eexists. split; reflexivity.
  - split; [reflexivity |]. eexists. split; [reflexivity |].
    split; [reflexivity |].
    intros Heq. cbn in Heq. injection Heq as Heq. lra.
Qed.

(** ** The residual of a homography constraint *)

Lemma to_matrix_of_ituple (n1 n2 : IntrinsicsNode.t R) :
  IntrinsicsNode.to_tuple n1 = IntrinsicsNode.to_tuple n2 ->
  IntrinsicsNode.to_matrix n1 = IntrinsicsNode.to_matrix n2.
Proof.
  unfold IntrinsicsNode.to_tuple, IntrinsicsNode.to_matrix. intros Ht.
  injection Ht as -> -> -> ->. reflexivity.
Qed.

Lemma to_matrix_of_etuple (n1 n2 : ExtrinsicsNode.t R) :
  ExtrinsicsNode.to_tuple n1 = ExtrinsicsNode.to_tuple n2 ->
  ExtrinsicsNode.to_matrix n1 = ExtrinsicsNode.to_matrix n2.
Proof.
  unfold ExtrinsicsNode.to_tuple, ExtrinsicsNode.to_matrix. intros Ht.
  injection Ht as -> -> -> -> -> ->. reflexivity.
Qed.

Lemma sq_errors_ignores_W heap1 heap2 c1 c2 :
  differ_only_in_weights heap1 heap2 c1 c2 ->
  HomographyConstraint.sq_errors heap1 c1 = HomographyConstraint.sq_errors heap2 c2.
Proof.
  intros (Hsrc & Htgt & Hi & He).
  unfold HomographyConstraint.sq_errors,
    HomographyConstraint.sq_unweighted_reprojection_errors.
  now rewrite Hsrc, Htgt, (to_matrix_of_ituple _ _ Hi), (to_matrix_of_etuple _ _ He).
Qed.

(** Constraints built from models with the same correspondences, on the
    same nodes, differ at most in their weights. *)
Lemma init_differ_only_in_weights heap hm1 hm2 i e c1 c2 :
  _corrs hm1 = _corrs hm2 ->
  HomographyConstraint.__init__ hm1 i e = Ok c1 ->
  HomographyConstraint.__init__ hm2 i e = Ok c2 ->
  differ_only_in_weights heap heap c1 c2.
Proof.
  unfold HomographyConstraint.__init__. intros Hc. rewrite Hc.
  destruct (length (map source (_corrs hm2))); [discriminate |].
  intros H1 H2. injection H1 as <-. injection H2 as <-.
  repeat split.
Qed.

(** C2. Constraints that differ only in their weights have the same
    [sq_errors], and graphs whose constraints differ only in their weights
    have the same [constraint_errors]: the matrix [W] never reaches the
    residual the solver minimises. *)
Theorem weights_never_reach_the_residual
  (heap1 heap2 : Heap R) (g1 g2 : ConstraintGraph.t) :
  Forall2 (differ_only_in_weights heap1 heap2)
    (ConstraintGraph.constraints g1) (ConstraintGraph.constraints g2) ->
  Forall2 (fun c1 c2 => HomographyConstraint.sq_errors heap1 c1
                        = HomographyConstraint.sq_errors heap2 c2)
    (ConstraintGraph.constraints g1) (ConstraintGraph.constraints g2)
  /\ ConstraintGraph.constraint_errors heap1 g1
     = ConstraintGraph.constraint_errors heap2 g2.
Proof.
  intros Hcs.
  assert (Heach : Forall2 (fun c1 c2 => HomographyConstraint.sq_errors heap1 c1
                                        = HomographyConstraint.sq_errors heap2 c2)
                    (ConstraintGraph.constraints g1) (ConstraintGraph.constraints g2)).
  { induction Hcs as [|c1 c2 cs1 cs2 Hc _ IH]; constructor; [| exact IH].
    now apply sq_errors_ignores_W. }
  split; [exact Heach |].
  unfold ConstraintGraph.constraint_errors. f_equal.
  clear Hcs. induction Heach as [|c1 c2 cs1 cs2 Hc _ IH]; [reflexivity |].
  cbn [map]. now rewrite Hc, IH.
Qed.

Lemma weights_never_reach_the_residual_witness :
  Forall2 (differ_only_in_weights camera_heap camera_heap) [unit_weighted] [ramp_weighted]
  /\ Forall2 (fun c1 c2 => HomographyConstraint.sq_errors camera_heap c1
                           = HomographyConstraint.sq_errors camera_heap c2)
       [unit_weighted] [ramp_weighted]
  /\ ConstraintGraph.constraint_errors camera_heap (graph_of unit_weighted)
     = ConstraintGraph.constraint_errors camera_heap (graph_of ramp_weighted).
Proof.
  assert (Hd : Forall2 (differ_only_in_weights camera_heap camera_heap)
                 [unit_weighted] [ramp_weighted]).
  { constructor; [| constructor]. unfold differ_only_in_weights. repeat split. }
  split; [exact Hd |].
  exact (weights_never_reach_the_residual camera_heap camera_heap
           (graph_of unit_weighted) (graph_of ramp_weighted) Hd).
Defined.

(** The function the solver minimises is the same for two graphs with the
    same nodes whose constraints differ only in [W]. *)
Lemma objective_ignores_W (heap : Heap R) (g1 g2 : ConstraintGraph.t) (x : vector) :
  ConstraintGraph.inodes g1 = ConstraintGraph.inodes g2 ->
  ConstraintGraph.enodes g1 = ConstraintGraph.enodes g2 ->
  Forall2 same_but_W (ConstraintGraph.constraints g1) (ConstraintGraph.constraints g2) ->
  objective heap g1 x = objective heap g2 x.
Proof.
  intros Hi He Hcs. unfold objective, ConstraintGraph._unpack_from_vector.
  rewrite Hi, He.
  destruct (reshape_rows _ 4) as [istate | e]; [| reflexivity].
  destruct (reshape_rows _ 6) as [estate | e]; [| reflexivity].
  cbn [bind].
  destruct (ConstraintGraph.set_inodes _ _ _) as [heap1 | e]; [| reflexivity].
  cbn [bind].
  destruct (ConstraintGraph.set_enodes _ _ _) as [heap2 | e]; [| reflexivity].
  cbn [bind].
  replace (ConstraintGraph.constraint_errors heap2 g1)
    with (ConstraintGraph.constraint_errors heap2 g2); [reflexivity |].
  unfold ConstraintGraph.constraint_errors. f_equal.
  induction Hcs as [|c1 c2 cs1 cs2 Hc _ IH]; [reflexivity |].
  cbn [map]. rewrite IH. f_equal. symmetry. apply sq_errors_ignores_W.
  destruct Hc as (Hsrc & Htgt & Hin & Hen). unfold differ_only_in_weights.
  now rewrite Hsrc, Htgt, Hin, Hen.
Qed.

Lemma pseudo_huber_loss_nth (sqerr : vector) (delta : R) (i : nat) :
  (i < length sqerr)%nat ->
  is_pseudo_huber delta (nth i sqerr 0)
    (nth i (HomographyConstraint.pseudo_huber_loss sqerr (map np_sqrt sqerr) delta) 0).
Proof.
  unfold HomographyConstraint.pseudo_huber_loss. revert i.
  induction sqerr as [|s sqerr IH]; intros i Hi; [simpl in Hi; lia |].
  destruct i as [|i].
  - simpl. unfold is_pseudo_huber, np_sqrt.
    destruct (Rle_dec (sqrt s) delta); split; intros; tauto.
  - simpl. apply IH. simpl in Hi. lia.
Qed.

Lemma length_pseudo_huber_loss (sqerr : vector) (delta : R) :
  length (HomographyConstraint.pseudo_huber_loss sqerr (map np_sqrt sqerr) delta)
  = length sqerr.
Proof.
  unfold HomographyConstraint.pseudo_huber_loss.
  rewrite length_map, length_combine, length_map. apply Nat.min_id.
Qed.

(** The square of [square_corrs] is reproduced exactly by [camera_heap]:
    the squared errors vanish, and so does the residual. *)
Example square_reprojects_exactly :
  HomographyConstraint.sq_unweighted_reprojection_errors camera_heap unit_weighted
  = [ [0; 0; 0; 0]; [0; 0; 0; 0] ]
  /\ HomographyConstraint.sq_errors camera_heap unit_weighted
     = [0; 0; 0; 0; 0; 0; 0; 0].
Proof.
  assert (Hsq :
    HomographyConstraint.sq_unweighted_reprojection_errors camera_heap unit_weighted
    = [ [0; 0; 0; 0]; [0; 0; 0; 0] ]).
  { cbn. rewrite cos_0, sin_0. list_eq; field. }
  split; [exact Hsq |].
  unfold HomographyConstraint.sq_errors. rewrite Hsq.
  unfold HomographyConstraint.pseudo_huber_loss, np_sqrt. cbn. rewrite sqrt_0.
  destruct (Rle_dec 0 1) as [_ | Hn]; [| lra].
  list_eq; lra.
Qed.

(** C4. [sq_errors] is the pseudo-Huber residual with threshold 1 of the
    flattened squared reprojection errors, entry by entry: [sqerr_i / 2]
    when [err_i = sqrt sqerr_i] is at most 1 and [1 * (err_i - 1/2)]
    otherwise.  At [err_i = 1] both formulas give [1^2 / 2]; between two
    entries with errors above 1 the residual grows by as much as the
    error does. *)
Theorem sq_errors_is_pseudo_huber (heap : Heap R) (c : HomographyConstraint.t) :
  let sqerr := ravel (HomographyConstraint.sq_unweighted_reprojection_errors heap c) in
  let residual := HomographyConstraint.sq_errors heap c in
  length residual = length sqerr
  /\ (forall i, (i < length sqerr)%nat ->
        is_pseudo_huber 1 (nth i sqerr 0) (nth i residual 0))
  /\ (forall sqerr_i, sqrt sqerr_i = 1 ->
        sqerr_i / 2 = 1 * 1 / 2 /\ 1 * (sqrt sqerr_i - 1 / 2) = 1 * 1 / 2)
  /\ (forall i j, (i < length sqerr)%nat -> (j < length sqerr)%nat ->
        1 < sqrt (nth i sqerr 0) -> 1 < sqrt (nth j sqerr 0) ->
        nth j residual 0 - nth i residual 0
        = 1 * (sqrt (nth j sqerr 0) - sqrt (nth i sqerr 0))).
Proof.
  intros sqerr residual.
  assert (Hnth : forall i, (i < length sqerr)%nat ->
                   is_pseudo_huber 1 (nth i sqerr 0) (nth i residual 0)).
  { intros i Hi. apply pseudo_huber_loss_nth. exact Hi. }
  repeat split.
  - apply length_pseudo_huber_loss.
  - apply Hnth; assumption.
  - apply Hnth; assumption.
  - assert (Hs : sqerr_i = 1).
    { destruct (Rle_dec 0 sqerr_i) as [Hpos | Hneg].
      - rewrite <- (sqrt_sqrt sqerr_i Hpos), H. ring.
      - rewrite sqrt_neg_0 in H by lra. lra. }
    rewrite Hs. lra.
  - rewrite H. lra.
  - intros i j Hi Hj Hei Hej.
    destruct (Hnth i Hi) as [_ Hri]. destruct (Hnth j Hj) as [_ Hrj].
    rewrite Hri, Hrj by lra. lra.
Qed.

(** ** 3x3 matrices *)

Lemma has_shape_33 (A : matrix) :
  has_shape 3 3 A = true ->
  exists a00 a01 a02 a10 a11 a12 a20 a21 a22,
    A = [ [a00; a01; a02]; [a10; a11; a12]; [a20; a21; a22] ].
Proof.
  unfold has_shape. intros Hs. apply andb_prop in Hs. destruct Hs as [Hr Hc].
  apply Nat.eqb_eq in Hr.
  destruct A as [|r0 [|r1 [|r2 [|r3 A]]]]; try discriminate Hr.
  simpl in Hc.
  repeat (apply andb_prop in Hc; let H := fresh "Hrow" in destruct Hc as [H Hc]).
  apply Nat.eqb_eq in Hrow, Hrow0, Hrow1.
  destruct r0 as [|a00 [|a01 [|a02 [|x r0]]]]; try discriminate Hrow.
  destruct r1 as [|a10 [|a11 [|a12 [|x r1]]]]; try discriminate Hrow0.
  destruct r2 as [|a20 [|a21 [|a22 [|x r2]]]]; try discriminate Hrow1.
  now exists a00, a01, a02, a10, a11, a12, a20, a21, a22.
Qed.

Ltac explicit_33 H :=
  let a00 := fresh "a00" in let a01 := fresh "a01" in let a02 := fresh "a02" in
  let a10 := fresh "a10" in let a11 := fresh "a11" in let a12 := fresh "a12" in
  let a20 := fresh "a20" in let a21 := fresh "a21" in let a22 := fresh "a22" in
  let E := fresh "E" in
  destruct (has_shape_33 _ H)
    as (a00 & a01 & a02 & a10 & a11 & a12 & a20 & a21 & a22 & E);
  subst; clear H.

Lemma dot_shape_33 A B :
  has_shape 3 3 A = true -> has_shape 3 3 B = true ->
  has_shape 3 3 (dot A B) = true.
Proof. intros HA HB. explicit_33 HA. explicit_33 HB. reflexivity. Qed.

Lemma transpose_shape_33 A :
  has_shape 3 3 A = true -> has_shape 3 3 (transpose A) = true.
Proof. intros HA. explicit_33 HA. reflexivity. Qed.

Lemma dot_assoc_33 A B C :
  has_shape 3 3 A = true -> has_shape 3 3 B = true -> has_shape 3 3 C = true ->
  dot (dot A B) C = dot A (dot B C).
Proof.
  intros HA HB HC. explicit_33 HA. explicit_33 HB. explicit_33 HC. entrywise.
Qed.

Lemma transpose_dot_33 A B :
  has_shape 3 3 A = true -> has_shape 3 3 B = true ->
  transpose (dot A B) = dot (transpose B) (transpose A).
Proof. intros HA HB. explicit_33 HA. explicit_33 HB. entrywise. Qed.

Lemma dot_eye_l_33 A : has_shape 3 3 A = true -> dot (eye 3) A = A.
Proof. intros HA. explicit_33 HA. entrywise. Qed.

Create HintDb shapes.
#[local] Hint Resolve dot_shape_33 transpose_shape_33 : shapes.

(** The product of two orthogonal 3x3 matrices is orthogonal. *)
Lemma orthogonal_dot_33 U Vt :
  has_shape 3 3 U = true -> has_shape 3 3 Vt = true ->
  dot (transpose U) U = eye 3 ->
  dot (transpose Vt) Vt = eye 3 ->
  dot (transpose (dot U Vt)) (dot U Vt) = eye 3.
Proof.
  intros HU HV HUU HVV.
  rewrite transpose_dot_33 by assumption.
  rewrite dot_assoc_33 by auto with shapes.
  rewrite <- (dot_assoc_33 (transpose U)) by auto with shapes.
  rewrite HUU, dot_eye_l_33 by assumption. exact HVV.
Qed.

(** ** Extrinsics from a homography *)

Lemma norm_nonneg v : 0 <= norm v.
Proof. apply sqrt_pos. Qed.

Lemma inv_33 K :
  has_shape 3 3 K = true -> det3 K <> 0 ->
  inv K = Ok (mmap (fun x => x / det3 K) (adjugate3 K)).
Proof.
  intros Hs Hdet. unfold inv. rewrite Hs.
  destruct (Req_dec_T (det3 K) 0) as [Hz | _]; [contradiction | reflexivity].
Qed.

(** The array [inv] returns is the inverse. *)
Lemma inv_is_inverse K Kinv :
  has_shape 3 3 K = true -> inv K = Ok Kinv ->
  dot K Kinv = eye 3 /\ dot Kinv K = eye 3.
Proof.
  intros Hs. unfold inv. rewrite Hs.
  destruct (Req_dec_T (det3 K) 0) as [Hz | Hdet]; [discriminate |].
  intros HK. injection HK as <-.
  destruct (has_shape_33 _ Hs)
    as (a00 & a01 & a02 & a10 & a11 & a12 & a20 & a21 & a22 & ->).
  set (d := det3 _) in *.
  assert (Hd : d = a00 * (a11 * a22 - a12 * a21) - a01 * (a10 * a22 - a12 * a20)
                   + a02 * (a10 * a21 - a11 * a20)) by reflexivity.
  clearbody d.
  split; cbn; list_eq; subst d; field; exact Hdet.
Qed.

Lemma scaled_M_settled H K :
  has_shape 3 3 K = true -> det3 K <> 0 ->
  scaled_M H K = Ok (settled (K_inv_H H K)).
Proof.
  intros Hs Hdet. unfold scaled_M. rewrite (inv_33 K Hs Hdet). cbn [bind].
  rewrite !math_sqrt_nonneg by apply norm_nonneg. reflexivity.
Qed.

Lemma K_inv_H_shape H K :
  has_shape 3 3 H = true -> has_shape 3 3 K = true ->
  has_shape 3 3 (K_inv_H H K) = true.
Proof. intros HH HK. explicit_33 HH. explicit_33 HK. reflexivity. Qed.

Lemma settled_shape M : has_shape 3 3 M = true -> has_shape 3 3 (settled M) = true.
Proof.
  intros HM. unfold settled. destruct (Rgt_dec _ 0); explicit_33 HM; reflexivity.
Qed.

(** The entries of [settled M]: those of [M], over the scale, times the
    sign. *)
Lemma settled_entries M :
  has_shape 3 3 M = true ->
  settled M = mmap (fun m => sign_of M * (m / scale_of M)) M.
Proof.
  intros HM. unfold settled, sign_of.
  replace (get (mmap (fun m => m / scale_of M) M) 1 2)
    with (get M 1 2 / scale_of M)
    by (destruct (has_shape_33 _ HM) as (? & ? & ? & ? & ? & ? & ? & ? & ? & ->);
        reflexivity).
  destruct (Rgt_dec (get M 1 2 / scale_of M) 0);
    destruct (has_shape_33 _ HM) as (? & ? & ? & ? & ? & ? & ? & ? & ? & ->);
    generalize (scale_of [[x; x0; x1]; [x2; x3; x4]; [x5; x6; x7]]); intros sc;
    cbn; list_eq; ring.
Qed.

(** What [orthonormalize] does to an assembled matrix: the rotation block
    becomes [U.dot(Vt)], entry by entry; the last column and the last row
    stay. *)
Lemma orthonormalize_assemble (svd : matrix -> matrix * vector * matrix)
  (M U Vt : matrix) (s : vector) :
  has_shape 3 3 M = true ->
  svd (block33 (assemble_E M)) = (U, s, Vt) ->
  let B := dot U Vt in
  orthonormalize svd (assemble_E M)
  = [ [ get B 0 0; get B 0 1; get B 0 2; get M 0 2 ];
      [ get B 1 0; get B 1 1; get B 1 2; get M 1 2 ];
      [ get B 2 0; get B 2 1; get B 2 2; get M 2 2 ];
      [ 0; 0; 0; 1 ] ].
Proof.
  intros HM Hsvd B. unfold orthonormalize. rewrite Hsvd. fold B.
  explicit_33 HM. reflexivity.
Qed.

Lemma get_extrinsics_from_homography_eq
  (svd : matrix -> matrix * vector * matrix) (H K U Vt : matrix) (s : vector) :
  has_shape 3 3 H = true -> has_shape 3 3 K = true -> det3 K <> 0 ->
  let M := settled (K_inv_H H K) in
  svd (block33 (assemble_E M)) = (U, s, Vt) ->
  let B := dot U Vt in
  get_extrinsics_from_homography svd H K
  = Ok [ [ get B 0 0; get B 0 1; get B 0 2; get M 0 2 ];
         [ get B 1 0; get B 1 1; get B 1 2; get M 1 2 ];
         [ get B 2 0; get B 2 1; get B 2 2; get M 2 2 ];
         [ 0; 0; 0; 1 ] ].
Proof.
  intros HH HK Hdet M Hsvd B. unfold get_extrinsics_from_homography.
  rewrite (scaled_M_settled H K HK Hdet). cbn [bind]. fold M. f_equal.
  apply (orthonormalize_assemble svd M U Vt s); [| exact Hsvd].
  apply settled_shape, K_inv_H_shape; assumption.
Qed.

(** The matrix assembled from the columns of a 3x3 [M]: its first two
    columns, their cross product, and its last column as the translation. *)
Lemma assemble_E_33 (a b c d e f g h i : R) :
  assemble_E [ [a; b; c]; [d; e; f]; [g; h; i] ]
  = [ [ a; b; d * h - g * e; c ];
      [ d; e; g * b - a * h; f ];
      [ g; h; a * e - d * b; i ];
      [ 0; 0; 0; 1 ] ].
Proof. reflexivity. Qed.

Lemma col_33 M j :
  has_shape 3 3 M = true -> col M j = [ get M 0 j; get M 1 j; get M 2 j ].
Proof. intros HM. explicit_33 HM. reflexivity. Qed.

Lemma get_settled M i j :
  has_shape 3 3 M = true -> (i < 3)%nat -> (j < 3)%nat ->
  get (settled M) i j = sign_of M * (get M i j / scale_of M).
Proof.
  intros HM Hi Hj. rewrite (settled_entries M HM).
  generalize (sign_of M) (scale_of M). intros sg sc.
  explicit_33 HM.
  destruct i as [|[|[|i]]]; [| | | lia];
    (destruct j as [|[|[|j]]]; [| | | lia]); reflexivity.
Qed.

Lemma get_extrinsics_translation_entries
  (svd : matrix -> matrix * vector * matrix) (H K : matrix) :
  has_shape 3 3 H = true -> has_shape 3 3 K = true -> det3 K <> 0 ->
  exists E,
    get_extrinsics_from_homography svd H K = Ok E
    /\ forall i, (i < 3)%nat ->
         get E i 3
         = sign_of (K_inv_H H K) * (get (K_inv_H H K) i 2 / scale_of (K_inv_H H K)).
Proof.
  intros HH HK Hdet.
  destruct (svd (block33 (assemble_E (settled (K_inv_H H K))))) as [[U s] Vt] eqn:Hsvd.
  eexists. split.
  - apply (get_extrinsics_from_homography_eq svd H K U Vt s); assumption.
  - intros i Hi. rewrite <- get_settled by (auto using K_inv_H_shape; lia).
    destruct i as [|[|[|i]]]; [| | | lia]; reflexivity.
Qed.

Lemma det3_eye : det3 (eye 3) = 1.
Proof. unfold det3. cbn. ring. Qed.

Lemma K_inv_H_eye H : has_shape 3 3 H = true -> K_inv_H H (eye 3) = H.
Proof.
  intros HH. unfold K_inv_H. rewrite det3_eye. explicit_33 HH.
  cbn. list_eq; field.
Qed.

Lemma scale_of_unit_columns M :
  vdot (col M 0) (col M 0) = 1 -> vdot (col M 1) (col M 1) = 1 -> scale_of M = 1.
Proof.
  intros H0 H1. unfold scale_of, norm. rewrite H0, H1, !sqrt_1. ring.
Qed.

Lemma scale_of_H_front : scale_of H_front = 1.
Proof. apply scale_of_unit_columns; cbn; ring. Qed.

Lemma scale_of_H_flip : scale_of H_flip = 1.
Proof. apply scale_of_unit_columns; cbn; ring. Qed.

Lemma sign_of_H_front : sign_of H_front = 1.
Proof.
  unfold sign_of. rewrite scale_of_H_front.
  destruct (Rgt_dec _ 0) as [Hgt | _]; [| reflexivity].
  cbn in Hgt. lra.
Qed.

Lemma sign_of_H_flip : sign_of H_flip = -1.
Proof.
  unfold sign_of. rewrite scale_of_H_flip.
  destruct (Rgt_dec _ 0) as [_ | Hngt]; [reflexivity |].
  cbn in Hngt. lra.
Qed.

(** C1. The sign test of [get_extrinsics_from_homography] reads the entry
    in row 1 of the last column of [M], the camera-frame y of the world
    origin, where its comment speaks of z.  For [H_front] the origin is at
    z = 1 > 0, the test does not fire, and the returned matrix has z = 1.
    For [H_flip] the origin is at z = -1 < 0, the test fires on y = 1, and
    the returned matrix has z = 1 again.  Whatever the decomposition
    returns, the recovered z is positive in both cases. *)
Theorem sign_test_reads_y (svd : matrix -> matrix * vector * matrix) :
  (get (K_inv_H H_front (eye 3)) 2 2 / scale_of (K_inv_H H_front (eye 3)) = 1
   /\ sign_of (K_inv_H H_front (eye 3)) = 1
   /\ exists E, get_extrinsics_from_homography svd H_front (eye 3) = Ok E
                /\ get E 2 3 = 1)
  /\ (get (K_inv_H H_flip (eye 3)) 2 2 / scale_of (K_inv_H H_flip (eye 3)) = -1
      /\ sign_of (K_inv_H H_flip (eye 3)) = -1
      /\ exists E, get_extrinsics_from_homography svd H_flip (eye 3) = Ok E
                   /\ get E 2 3 = 1).
Proof.
  assert (Hdet : det3 (eye 3) <> 0) by (rewrite det3_eye; lra).
  split.
  - rewrite (K_inv_H_eye H_front eq_refl), scale_of_H_front, sign_of_H_front.
    split; [cbn; lra |]. split; [reflexivity |].
    destruct (get_extrinsics_translation_entries svd H_front (eye 3) eq_refl eq_refl Hdet)
      as (E & HE & Ht).
    exists E. split; [exact HE |].
    rewrite (Ht 2%nat) by lia.
    rewrite (K_inv_H_eye H_front eq_refl), scale_of_H_front, sign_of_H_front.
    cbn. lra.
  - rewrite (K_inv_H_eye H_flip eq_refl), scale_of_H_flip, sign_of_H_flip.
    split; [cbn; lra |]. split; [reflexivity |].
    destruct (get_extrinsics_translation_entries svd H_flip (eye 3) eq_refl eq_refl Hdet)
      as (E & HE & Ht).
    exists E. split; [exact HE |].
    rewrite (Ht 2%nat) by lia.
    rewrite (K_inv_H_eye H_flip eq_refl), scale_of_H_flip, sign_of_H_flip.
    cbn. lra.
Qed.

(** C7. For 3x3 [H] and invertible 3x3 [K] with nonzero scale, and a
    decomposition that returns orthogonal 3x3 factors [U] and [Vt] for the
    assembled rotation block: the call returns a 4x4 matrix whose rotation
    block [R = U.dot(Vt)] satisfies [R^T R = I], whose last row is
    [0, 0, 0, 1], and whose translation is the last column of [K^-1 H]
    over the scale, times the sign the test settled on. *)
Theorem get_extrinsics_is_rigid
  (svd : matrix -> matrix * vector * matrix) (H K U Vt : matrix) (s : vector) :
  has_shape 3 3 H = true -> has_shape 3 3 K = true -> det3 K <> 0 ->
  let M := K_inv_H H K in
  scale_of M <> 0 ->
  svd (block33 (assemble_E (settled M))) = (U, s, Vt) ->
  has_shape 3 3 U = true -> has_shape 3 3 Vt = true ->
  dot (transpose U) U = eye 3 ->
  dot (transpose Vt) Vt = eye 3 ->
  exists E,
    get_extrinsics_from_homography svd H K = Ok E
    /\ has_shape 4 4 E = true
    /\ block33 E = dot U Vt
    /\ dot (transpose (block33 E)) (block33 E) = eye 3
    /\ nth 3 E [] = [0; 0; 0; 1]
    /\ firstn 3 (col E 3) = map (fun m => sign_of M * (m / scale_of M)) (col M 2).
Proof.
  intros HH HK Hdet M Hscale Hsvd HU HV HUU HVV.
  assert (HM : has_shape 3 3 M = true) by (apply K_inv_H_shape; assumption).
  eexists. split.
  { apply (get_extrinsics_from_homography_eq svd H K U Vt s); assumption. }
  fold M.
  assert (HB : has_shape 3 3 (dot U Vt) = true) by auto with shapes.
  assert (Hblock :
    block33 [ [ get (dot U Vt) 0 0; get (dot U Vt) 0 1; get (dot U Vt) 0 2;
                get (settled M) 0 2 ];
              [ get (dot U Vt) 1 0; get (dot U Vt) 1 1; get (dot U Vt) 1 2;
                get (settled M) 1 2 ];
              [ get (dot U Vt) 2 0; get (dot U Vt) 2 1; get (dot U Vt) 2 2;
                get (settled M) 2 2 ];
              [ 0; 0; 0; 1 ] ] = dot U Vt).
  { destruct (has_shape_33 _ HB) as (? & ? & ? & ? & ? & ? & ? & ? & ? & ->).
    reflexivity. }
  split; [reflexivity |]. split; [exact Hblock |].
  split; [rewrite Hblock; now apply orthogonal_dot_33 |].
  split; [reflexivity |].
  rewrite (col_33 M 2 HM). cbn [col map getv nth firstn].
  now rewrite !get_settled by (auto; lia).
Qed.

Lemma get_extrinsics_is_rigid_witness :
  has_shape 3 3 H_front = true /\ det3 (eye 3) <> 0
  /\ scale_of (K_inv_H H_front (eye 3)) <> 0
  /\ exists E,
       get_extrinsics_from_homography svd_identity H_front (eye 3) = Ok E
       /\ has_shape 4 4 E = true
       /\ block33 E = dot (eye 3) (eye 3)
       /\ dot (transpose (block33 E)) (block33 E) = eye 3
       /\ nth 3 E [] = [0; 0; 0; 1]
       /\ firstn 3 (col E 3)
          = map (fun m => sign_of (K_inv_H H_front (eye 3))
                          * (m / scale_of (K_inv_H H_front (eye 3))))
                (col (K_inv_H H_front (eye 3)) 2).
Proof.
  assert (Hdet : det3 (eye 3) <> 0) by (rewrite det3_eye; lra).
  assert (Hscale : scale_of (K_inv_H H_front (eye 3)) <> 0)
    by (rewrite (K_inv_H_eye H_front eq_refl), scale_of_H_front; lra).
  split; [reflexivity |]. split; [exact Hdet |]. split; [exact Hscale |].
  apply (get_extrinsics_is_rigid svd_identity H_front (eye 3) (eye 3) (eye 3) [1; 1; 1]).
  - reflexivity.
  - reflexivity.
  - exact Hdet.
  - exact Hscale.
  - reflexivity.
  - reflexivity.
  - reflexivity.
  - cbn. list_eq; ring.
  - cbn. list_eq; ring.
Defined.

(** ** The sign of the homography *)










(** ** Euler angles *)







(** * Further properties of refine_homography.py *)

(** ** The coefficient vector *)

(** [_coeff_vec(H, i, j)] is the vector [v] with [v . b = h_i^T B h_j] for
    every symmetric [B] with entries [b], where [h_i], [h_j] are columns of
    [H]; it is symmetric in [i] and [j]. *)
Theorem _coeff_vec_bilinear (H : matrix) (i j : nat) (b11 b12 b22 b13 b23 b33 : R) :
  has_shape 3 3 H = true -> (i < 3)%nat -> (j < 3)%nat ->
  let b := [b11; b12; b22; b13; b23; b33] in
  exists v,
    _coeff_vec H i j = Ok v
    /\ _coeff_vec H j i = Ok v
    /\ vdot v b = vdot (col H i) (mvec (conic_matrix b) (col H j)).
Proof.
  intros HH Hi Hj b. subst b. explicit_33 HH.
  destruct i as [|[|[|i]]]; [| | | lia];
    (destruct j as [|[|[|j]]]; [| | | lia]);
    (eexists; split; [reflexivity | split];
     [unfold _coeff_vec, vector; cbn; first [reflexivity | list_eq; ring]
     | cbn; ring]).
Qed.

Lemma _coeff_vec_bilinear_witness :
  has_shape 3 3 H_flip = true
  /\ exists v,
       _coeff_vec H_flip 1 2 = Ok v
       /\ _coeff_vec H_flip 2 1 = Ok v
       /\ vdot v [1; 0; 1; 0; 0; 1]
          = vdot (col H_flip 1) (mvec (conic_matrix [1; 0; 1; 0; 0; 1]) (col H_flip 2)).
Proof.
  split; [reflexivity |].
  apply (_coeff_vec_bilinear H_flip 1 2 1 0 1 0 0 1); [reflexivity | lia | lia].
Defined.

(** ** The closed-form solution *)

Lemma _cam_matrix_from_B_steps b11 b12 b22 b13 b23 b33 v0 lam alpha beta :
  (b12*b13 - b11*b23) / (b11*b22 - b12*b12) = v0 ->
  b33 - (b13*b13 + v0*(b12*b13 - b11*b23)) / b11 = lam ->
  lam / b11 = alpha * alpha ->
  lam * b11 / (b11*b22 - b12*b12) = beta * beta ->
  0 <= alpha -> 0 <= beta ->
  _cam_matrix_from_B b11 b12 b22 b13 b23 b33
  = Ok [ [ alpha; - b12 * alpha * alpha * beta / lam;
           - b12 * alpha * alpha * beta / lam * v0 / beta
           - b13 * alpha * alpha / lam ];
         [ 0; beta; v0 ];
         [ 0; 0; 1 ] ].
Proof.
  intros Hv0 Hlam Ha Hb Hapos Hbpos. unfold _cam_matrix_from_B. cbv zeta.
  rewrite Hv0, Hlam, Ha, Hb.
  rewrite !math_sqrt_nonneg by nra. cbn [bind].
  rewrite !sqrt_square by assumption. reflexivity.
Qed.

(** The entries of [lam * K^-T K^-1] for an upper triangular [K]. *)
Lemma absolute_conic_entries alpha beta gamma u0 v0 lam :
  alpha <> 0 -> beta <> 0 ->
  conic_vector (absolute_conic lam (K_of alpha beta gamma u0 v0))
  = [ lam / (alpha * alpha);
      - (lam * gamma) / (alpha * alpha * beta);
      lam * (gamma * gamma + alpha * alpha) / (alpha * alpha * beta * beta);
      lam * (gamma * v0 - beta * u0) / (alpha * alpha * beta);
      - (lam * (gamma * (gamma * v0 - beta * u0) + alpha * alpha * v0))
        / (alpha * alpha * beta * beta);
      lam * ((gamma * v0 - beta * u0) * (gamma * v0 - beta * u0)
             + alpha * alpha * v0 * v0 + alpha * alpha * beta * beta)
        / (alpha * alpha * beta * beta) ].
Proof.
  intros Ha Hb. unfold conic_vector, absolute_conic, K_of, det3. cbn.
  list_eq; field; auto.
Qed.

(** The closed form on the entries of [lam * K^-T K^-1]. *)
Lemma _cam_matrix_from_B_of_entries (alpha beta gamma u0 v0 lam : R)
  (b11 b12 b22 b13 b23 b33 : R) :
  0 < alpha -> 0 < beta -> lam <> 0 ->
  b11 = lam / (alpha * alpha) ->
  b12 = - (lam * gamma) / (alpha * alpha * beta) ->
  b22 = lam * (gamma * gamma + alpha * alpha) / (alpha * alpha * beta * beta) ->
  b13 = lam * (gamma * v0 - beta * u0) / (alpha * alpha * beta) ->
  b23 = - (lam * (gamma * (gamma * v0 - beta * u0) + alpha * alpha * v0))
        / (alpha * alpha * beta * beta) ->
  b33 = lam * ((gamma * v0 - beta * u0) * (gamma * v0 - beta * u0)
               + alpha * alpha * v0 * v0 + alpha * alpha * beta * beta)
        / (alpha * alpha * beta * beta) ->
  _cam_matrix_from_B b11 b12 b22 b13 b23 b33 = Ok (K_of alpha beta gamma u0 v0).
Proof.
  intros Ha Hb Hlam H11 H12 H22 H13 H23 H33.
  assert (HD : b11 * b22 - b12 * b12 = lam * lam / (alpha * alpha * beta * beta))
    by (rewrite H11, H12, H22; field; lra).
  assert (HN : b12 * b13 - b11 * b23 = lam * lam * v0 / (alpha * alpha * beta * beta))
    by (rewrite H11, H12, H13, H23; field; lra).
  assert (Hv0 : (b12 * b13 - b11 * b23) / (b11 * b22 - b12 * b12) = v0)
    by (rewrite HD, HN; field; repeat split; lra).
  assert (Hl : b33 - (b13 * b13 + v0 * (b12 * b13 - b11 * b23)) / b11 = lam)
    by (rewrite HN, H11, H13, H33; field; repeat split; lra).
  assert (Hal : lam / b11 = alpha * alpha)
    by (rewrite H11; field; repeat split; lra).
  assert (Hbe : lam * b11 / (b11 * b22 - b12 * b12) = beta * beta)
    by (rewrite HD, H11; field; repeat split; lra).
  rewrite (_cam_matrix_from_B_steps _ _ _ _ _ _ v0 lam alpha beta Hv0 Hl Hal Hbe)
    by lra.
  rewrite H12, H13. unfold K_of, matrix, vector. list_eq; field; repeat split; lra.
Qed.

(** [_cam_matrix_from_B] inverts the map from intrinsics to the image of
    the absolute conic: from the entries of any nonzero multiple of
    [K^-T K^-1], with [K] upper triangular with positive focal lengths, it
    returns [K]; the sign and the size of the multiple do not matter. *)
Theorem _cam_matrix_from_B_recovers_K (alpha beta gamma u0 v0 lam : R) :
  0 < alpha -> 0 < beta -> lam <> 0 ->
  let K := K_of alpha beta gamma u0 v0 in
  let B := absolute_conic lam K in
  _cam_matrix_from_B (get B 0 0) (get B 0 1) (get B 1 1)
                     (get B 0 2) (get B 1 2) (get B 2 2) = Ok K.
Proof.
  intros Ha Hb Hlam K B.
  pose proof (absolute_conic_entries alpha beta gamma u0 v0 lam
                ltac:(lra) ltac:(lra)) as HB.
  fold K in HB. fold B in HB. unfold conic_vector in HB.
  injection HB as H11 H12 H22 H13 H23 H33.
  now apply (_cam_matrix_from_B_of_entries alpha beta gamma u0 v0 lam).
Qed.

Lemma _cam_matrix_from_B_recovers_K_witness :
  let K := K_of 800 700 1 320 240 in
  let B := absolute_conic (-2) K in
  _cam_matrix_from_B (get B 0 0) (get B 0 1) (get B 1 1)
                     (get B 0 2) (get B 1 2) (get B 2 2) = Ok K.
Proof.
  apply (_cam_matrix_from_B_recovers_K 800 700 1 320 240 (-2)); lra.
Defined.

(** ** The constraints on the image of the absolute conic *)

Lemma homography_of_shape s K M :
  has_shape 3 3 K = true -> has_shape 3 3 M = true ->
  has_shape 3 3 (homography_of s K M) = true.
Proof. intros HK HM. explicit_33 HK. explicit_33 HM. reflexivity. Qed.

(** The two rows one homography contributes, against the vector of the
    conic: the inner product of the first two pose columns, and the
    difference of their squared lengths, up to the factor [lam * s^2]. *)
Lemma conic_rows_of_view (alpha beta gamma u0 v0 lam s : R) (M : matrix) :
  alpha <> 0 -> beta <> 0 -> has_shape 3 3 M = true ->
  let K := K_of alpha beta gamma u0 v0 in
  let H := homography_of s K M in
  let b := conic_vector (absolute_conic lam K) in
  exists c01 c00 c11,
    _coeff_vec H 0 1 = Ok c01
    /\ _coeff_vec H 0 0 = Ok c00
    /\ _coeff_vec H 1 1 = Ok c11
    /\ vdot c01 b = lam * s * s * vdot (col M 0) (col M 1)
    /\ vdot (vsub c00 c11) b
       = lam * s * s * (vdot (col M 0) (col M 0) - vdot (col M 1) (col M 1)).
Proof.
  intros Ha Hb HM K H b. subst b H K.
  rewrite (absolute_conic_entries alpha beta gamma u0 v0 lam Ha Hb).
  explicit_33 HM.
  do 3 eexists. repeat (split; [reflexivity |]).
  split; cbn; field; auto.
Qed.

Lemma Forall_app_intro {X : Type} (P : X -> Prop) (l1 l2 : list X) :
  Forall P l1 -> Forall P l2 -> Forall P (l1 ++ l2).
Proof. intros H1 H2. apply Forall_app. now split. Qed.

(** Zhang's constraints: when every homography is a view of the plane by
    the same camera [K], the loop of [estimate_intrinsics] and
    [estimate_intrinsics_noskew] succeeds, builds two rows per homography,
    and every row is orthogonal to the vector of [lam * K^-T K^-1]: the
    conic of the true intrinsics lies in the null space of the constraint
    matrix. *)
Theorem conic_constraints_null_space
  (alpha beta gamma u0 v0 lam : R) (homographies : list matrix) :
  alpha <> 0 -> beta <> 0 ->
  let K := K_of alpha beta gamma u0 v0 in
  let b := conic_vector (absolute_conic lam K) in
  Forall (plane_view K) homographies ->
  exists C,
    conic_constraints homographies [] = Ok C
    /\ length C = (2 * length homographies)%nat
    /\ Forall (fun row => vdot row b = 0) C.
Proof.
  intros Ha Hb K b Hviews. subst b K.
  set (b := conic_vector (absolute_conic lam (K_of alpha beta gamma u0 v0))) in *.
  assert (Hgen : forall acc,
    Forall (fun row => vdot row b = 0) acc ->
    exists C,
      conic_constraints homographies acc = Ok C
      /\ length C = (length acc + 2 * length homographies)%nat
      /\ Forall (fun row => vdot row b = 0) C).
  { induction Hviews as [|H rest Hview _ IH]; intros acc Hacc.
    - exists acc. simpl. repeat split; [lia | exact Hacc].
    - destruct Hview as (s & M & HM & Horth & Hlen & ->).
      destruct (conic_rows_of_view alpha beta gamma u0 v0 lam s M Ha Hb HM)
        as (c01 & c00 & c11 & H01 & H00 & H11 & Hr1 & Hr2).
      fold b in Hr1, Hr2.
      cbn [conic_constraints]. rewrite H01, H00, H11. cbn [bind].
      destruct (IH (acc ++ [c01] ++ [vsub c00 c11])) as (C & HC & HlenC & HallC).
      + apply Forall_app_intro; [exact Hacc |].
        repeat constructor.
        * rewrite Hr1, Horth. ring.
        * rewrite Hr2, Hlen. ring.
      + exists C. repeat split; [exact HC | | exact HallC].
        rewrite HlenC, !length_app. simpl. lia. }
  destruct (Hgen [] (Forall_nil _)) as (C & HC & HlenC & HallC).
  exists C. repeat split; assumption.
Qed.

Lemma conic_constraints_null_space_witness :
  let K := K_of 800 700 1 320 240 in
  Forall (plane_view K) [homography_of 2 K (eye 3); homography_of 1 K H_flip]
  /\ exists C,
       conic_constraints [homography_of 2 K (eye 3); homography_of 1 K H_flip] []
         = Ok C
       /\ length C = (2 * 2)%nat
       /\ Forall (fun row => vdot row (conic_vector (absolute_conic 1 K)) = 0) C.
Proof.
  intros K.
  assert (Hviews : Forall (plane_view K)
                     [homography_of 2 K (eye 3); homography_of 1 K H_flip]).
  { repeat constructor.
    - exists 2, (eye 3). repeat split; cbn; ring.
    - exists 1, H_flip. repeat split; cbn; ring. }
  split; [exact Hviews |].
  apply (conic_constraints_null_space 800 700 1 320 240 1 _ ltac:(lra) ltac:(lra) Hviews).
Defined.








(** ** The estimator with a known centre *)

Lemma cxy_rows_of_view (alpha beta u0 v0 lam s : R) (M : matrix) :
  alpha <> 0 -> beta <> 0 -> has_shape 3 3 M = true ->
  let H := homography_of s (K_of alpha beta 0 u0 v0) M in
  let x := [ lam / (alpha * alpha); lam / (beta * beta); lam ] in
  exists row1 row2,
    cxy_rows u0 v0 H = Ok [row1; row2]
    /\ vdot row1 x = lam * s * s * vdot (col M 0) (col M 1)
    /\ vdot row2 x
       = lam * s * s * (vdot (col M 0) (col M 0) - vdot (col M 1) (col M 1)).
Proof.
  intros Ha Hb HM H x. subst x H. explicit_33 HM.
  do 2 eexists. split; [reflexivity |].
  split; cbn; field; auto.
Qed.

(** The rows [estimate_intrinsics_noskew_assume_cxy] builds from views of
    the plane by a zero-skew camera with the assumed centre are orthogonal
    to every multiple of [(1/alpha^2, 1/beta^2, 1)]. *)
Theorem cxy_constraints_null_space
  (alpha beta u0 v0 lam : R) (homographies : list matrix) :
  alpha <> 0 -> beta <> 0 ->
  Forall (plane_view (K_of alpha beta 0 u0 v0)) homographies ->
  exists C,
    cxy_constraints u0 v0 homographies [] = Ok C
    /\ length C = (2 * length homographies)%nat
    /\ Forall (fun row =>
                 vdot row [ lam / (alpha * alpha); lam / (beta * beta); lam ] = 0) C.
Proof.
  intros Ha Hb Hviews.
  set (x := [ lam / (alpha * alpha); lam / (beta * beta); lam ]).
  assert (Hgen : forall acc,
    Forall (fun row => vdot row x = 0) acc ->
    exists C,
      cxy_constraints u0 v0 homographies acc = Ok C
      /\ length C = (length acc + 2 * length homographies)%nat
      /\ Forall (fun row => vdot row x = 0) C).
  { induction Hviews as [|H rest Hview _ IH]; intros acc Hacc.
    - exists acc. simpl. repeat split; [lia | exact Hacc].
    - destruct Hview as (s & M & HM & Horth & Hlen & ->).
      destruct (cxy_rows_of_view alpha beta u0 v0 lam s M Ha Hb HM)
        as (row1 & row2 & Hrows & Hr1 & Hr2).
      fold x in Hr1, Hr2.
      cbn [cxy_constraints]. rewrite Hrows. cbn [bind].
      destruct (IH (acc ++ [row1; row2])) as (C & HC & HlenC & HallC).
      + apply Forall_app_intro; [exact Hacc |].
        repeat constructor.
        * rewrite Hr1, Horth. ring.
        * rewrite Hr2, Hlen. ring.
      + exists C. repeat split; [exact HC | | exact HallC].
        rewrite HlenC, !length_app. simpl. lia. }
  destruct (Hgen [] (Forall_nil _)) as (C & HC & HlenC & HallC).
  exists C. repeat split; assumption.
Qed.

Lemma cxy_constraints_null_space_witness :
  let K := K_of 800 700 0 320 240 in
  Forall (plane_view K) [homography_of 2 K H_flip]
  /\ exists C,
       cxy_constraints 320 240 [homography_of 2 K H_flip] [] = Ok C
       /\ length C = (2 * 1)%nat
       /\ Forall (fun row => vdot row [ 5 / (800 * 800); 5 / (700 * 700); 5 ] = 0) C.
Proof.
  intros K.
  assert (Hviews : Forall (plane_view K) [homography_of 2 K H_flip]).
  { repeat constructor. exists 2, H_flip. repeat split; cbn; ring. }
  split; [exact Hviews |].
  apply (cxy_constraints_null_space 800 700 320 240 5 _ ltac:(lra) ltac:(lra) Hviews).
Defined.





(** ** Extrinsics: the scale of the homography *)

Lemma K_inv_H_scale c H K :
  has_shape 3 3 H = true -> has_shape 3 3 K = true ->
  K_inv_H (mmap (fun x => c * x) H) K = mmap (fun x => c * x) (K_inv_H H K).
Proof.
  intros HH HK. unfold K_inv_H. generalize (det3 K). intros d.
  explicit_33 HH. explicit_33 HK. unfold Rdiv. cbn. list_eq; ring.
Qed.

Lemma sqrt_norm_scale c a0 a1 a2 :
  0 <= c ->
  sqrt (norm [c * a0; c * a1; c * a2]) = sqrt c * sqrt (norm [a0; a1; a2]).
Proof.
  intros Hc. unfold norm. cbn.
  replace (c * a0 * (c * a0) + (c * a1 * (c * a1) + (c * a2 * (c * a2) + 0)))
    with (c * c * (a0 * a0 + (a1 * a1 + (a2 * a2 + 0)))) by ring.
  rewrite sqrt_mult_alt by nra. rewrite sqrt_square by assumption.
  apply sqrt_mult_alt. exact Hc.
Qed.

Lemma scale_of_scale c M :
  0 <= c -> has_shape 3 3 M = true ->
  scale_of (mmap (fun x => c * x) M) = c * scale_of M.
Proof.
  intros Hc HM. explicit_33 HM. unfold scale_of. cbn [mmap map col getv nth].
  rewrite !sqrt_norm_scale by assumption.
  transitivity (sqrt c * sqrt c * (sqrt (norm [a00; a10; a20]) * sqrt (norm [a01; a11; a21])));
    [ring |].
  now rewrite sqrt_sqrt.
Qed.

Lemma mmap_shape_33 f M :
  has_shape 3 3 M = true -> has_shape 3 3 (mmap f M) = true.
Proof. intros HM. explicit_33 HM. reflexivity. Qed.

Lemma get_mmap_33 f M i j :
  has_shape 3 3 M = true -> (i < 3)%nat -> (j < 3)%nat ->
  get (mmap f M) i j = f (get M i j).
Proof.
  intros HM Hi Hj. explicit_33 HM.
  destruct i as [|[|[|i]]]; [| | | lia];
    (destruct j as [|[|[|j]]]; [| | | lia]); reflexivity.
Qed.

(** Rescaling by a positive factor changes nothing once [M] is divided by
    its scale. *)
Lemma settled_scale c M :
  0 < c -> has_shape 3 3 M = true -> scale_of M <> 0 ->
  settled (mmap (fun x => c * x) M) = settled M.
Proof.
  intros Hc HM Hs.
  rewrite (settled_entries (mmap (fun x => c * x) M)) by now apply mmap_shape_33.
  rewrite (settled_entries M HM).
  assert (Hsign : sign_of (mmap (fun x => c * x) M) = sign_of M).
  { unfold sign_of. rewrite scale_of_scale by (assumption || lra).
    rewrite (get_mmap_33 _ M 1 2 HM) by lia.
    replace (c * get M 1 2 / (c * scale_of M)) with (get M 1 2 / scale_of M)
      by (field; split; [assumption | lra]).
    reflexivity. }
  rewrite Hsign, scale_of_scale by (assumption || lra).
  revert Hs. generalize (sign_of M) (scale_of M). intros sg sc Hsc.
  explicit_33 HM. cbn. list_eq; field; split; (assumption || lra).
Qed.

(** A homography is defined up to a positive factor, and
    [get_extrinsics_from_homography] respects that: [c * H] with [c > 0]
    gives the same extrinsics as [H]. *)
Theorem get_extrinsics_scale_invariant
  (svd : matrix -> matrix * vector * matrix) (H K : matrix) (c : R) :
  has_shape 3 3 H = true -> has_shape 3 3 K = true -> det3 K <> 0 ->
  scale_of (K_inv_H H K) <> 0 -> 0 < c ->
  get_extrinsics_from_homography svd (mmap (fun x => c * x) H) K
  = get_extrinsics_from_homography svd H K.
Proof.
  intros HH HK Hdet Hs Hc. unfold get_extrinsics_from_homography.
  rewrite !scaled_M_settled by assumption.
  rewrite (K_inv_H_scale c H K HH HK).
  rewrite settled_scale by (auto using K_inv_H_shape).
  reflexivity.
Qed.

Lemma get_extrinsics_scale_invariant_witness :
  get_extrinsics_from_homography svd_of_orthogonal (mmap (fun x => 5 * x) H_flip) (eye 3)
  = get_extrinsics_from_homography svd_of_orthogonal H_flip (eye 3).
Proof.
  apply (get_extrinsics_scale_invariant svd_of_orthogonal H_flip (eye 3) 5).
  - reflexivity.
  - reflexivity.
  - rewrite det3_eye. lra.
  - rewrite (K_inv_H_eye H_flip eq_refl), scale_of_H_flip. lra.
  - lra.
Defined.

(** ** Extrinsics: a homography without noise *)

Lemma K_inv_H_of_product K M :
  has_shape 3 3 K = true -> has_shape 3 3 M = true -> det3 K <> 0 ->
  K_inv_H (dot K M) K = M.
Proof.
  intros HK HM Hdet. unfold K_inv_H.
  destruct (has_shape_33 _ HK)
    as (k00 & k01 & k02 & k10 & k11 & k12 & k20 & k21 & k22 & ->).
  explicit_33 HM.
  set (d := det3 _) in *.
  assert (Hd : d = k00 * (k11 * k22 - k12 * k21) - k01 * (k10 * k22 - k12 * k20)
                   + k02 * (k10 * k21 - k11 * k20)) by reflexivity.
  clearbody d. cbn. list_eq; subst d; field; exact Hdet.
Qed.

(** For [H = s * K.dot(M)] with [s > 0] and the first two columns of [M]
    of unit length, the matrix handed to the orthonormalisation is
    assembled from [M] itself up to the sign the test settles on: the pose
    is recovered exactly but for that sign, and the translation returned is
    the last column of [M] times the sign. *)
Theorem get_extrinsics_of_exact_homography
  (svd : matrix -> matrix * vector * matrix) (K M : matrix) (s : R) :
  has_shape 3 3 K = true -> has_shape 3 3 M = true -> det3 K <> 0 -> 0 < s ->
  vdot (col M 0) (col M 0) = 1 -> vdot (col M 1) (col M 1) = 1 ->
  let sign := if Rgt_dec (get M 1 2) 0 then -1 else 1 in
  exists E,
    get_extrinsics_from_homography svd (homography_of s K M) K = Ok E
    /\ E = orthonormalize svd (assemble_E (mmap (fun m => sign * m) M))
    /\ firstn 3 (col E 3) = map (fun m => sign * m) (col M 2).
Proof.
  intros HK HM Hdet Hs H0 H1 sign.
  assert (Hscale : scale_of M = 1) by now apply scale_of_unit_columns.
  assert (Hsign : sign_of M = sign).
  { unfold sign_of, sign. rewrite Hscale. unfold Rdiv. now rewrite Rinv_1, Rmult_1_r. }
  assert (Hset : settled (K_inv_H (homography_of s K M) K)
                 = mmap (fun m => sign * m) M).
  { unfold homography_of.
    rewrite K_inv_H_scale by auto with shapes.
    rewrite K_inv_H_of_product by assumption.
    rewrite settled_scale by (assumption || (rewrite Hscale; lra)).
    rewrite (settled_entries M HM), Hsign, Hscale.
    generalize sign. intros sg. explicit_33 HM. cbn. list_eq; field. }
  eexists. split; [| split; [reflexivity |]].
  - unfold get_extrinsics_from_homography.
    rewrite scaled_M_settled by assumption. cbn [bind]. now rewrite Hset.
  - unfold orthonormalize. destruct (svd _) as [[U sv] Vt].
    generalize sign. intros sg. explicit_33 HM. reflexivity.
Qed.

Lemma get_extrinsics_of_exact_homography_witness :
  let K := K_of 800 700 1 320 240 in
  exists E,
    get_extrinsics_from_homography svd_of_orthogonal (homography_of 2 K H_flip) K = Ok E
    /\ E = orthonormalize svd_of_orthogonal
             (assemble_E (mmap (fun m => (if Rgt_dec (get H_flip 1 2) 0 then -1 else 1) * m)
                               H_flip))
    /\ firstn 3 (col E 3)
       = map (fun m => (if Rgt_dec (get H_flip 1 2) 0 then -1 else 1) * m) (col H_flip 2).
Proof.
  intros K.
  apply (get_extrinsics_of_exact_homography svd_of_orthogonal K H_flip 2).
  - reflexivity.
  - reflexivity.
  - unfold K, K_of, det3. cbn. lra.
  - lra.
  - cbn. ring.
  - cbn. ring.
Defined.

(** ** The rigid transform of six parameters *)

Lemma rot3_orthogonal t :
  dot (transpose (rotx3 t)) (rotx3 t) = eye 3
  /\ dot (transpose (roty3 t)) (roty3 t) = eye 3
  /\ dot (transpose (rotz3 t)) (rotz3 t) = eye 3.
Proof.
  pose proof (sin2_cos2 t) as Hsc. unfold Rsqr in Hsc.
  repeat split; cbn; list_eq; try ring;
    (transitivity (sin t * sin t + cos t * cos t); [ring | exact Hsc]).
Qed.

Lemma block33_xyzrph x y z r p h :
  block33 (_xyzrph_to_matrix x y z r p h) = dot (dot (rotz3 h) (roty3 p)) (rotx3 r).
Proof. cbn. list_eq; ring. Qed.

(** [_xyzrph_to_matrix] returns a rigid transform for every choice of the
    six parameters: a 4x4 matrix whose rotation block [R] satisfies
    [R^T R = I] and [det R = 1], whose last column is [(x, y, z, 1)] and
    whose last row is [0, 0, 0, 1]. *)
Theorem _xyzrph_to_matrix_rigid (x y z r p h : R) :
  let E := _xyzrph_to_matrix x y z r p h in
  has_shape 4 4 E = true
  /\ dot (transpose (block33 E)) (block33 E) = eye 3
  /\ det3 (block33 E) = 1
  /\ col E 3 = [x; y; z; 1]
  /\ nth 3 E [] = [0; 0; 0; 1].
Proof.
  intros E. subst E. split; [reflexivity |]. split; [| split; [| split]].
  - rewrite block33_xyzrph.
    destruct (rot3_orthogonal r) as (Hx & _ & _).
    destruct (rot3_orthogonal p) as (_ & Hy & _).
    destruct (rot3_orthogonal h) as (_ & _ & Hz).
    apply orthogonal_dot_33; try reflexivity; [| exact Hx].
    apply orthogonal_dot_33; try reflexivity; assumption.
  - pose proof (sin2_cos2 r) as Hr. pose proof (sin2_cos2 p) as Hp.
    pose proof (sin2_cos2 h) as Hh. unfold Rsqr in *.
    unfold det3. cbn.
    transitivity ((sin r * sin r + cos r * cos r) * (sin p * sin p + cos p * cos p)
                  * (sin h * sin h + cos h * cos h)); [ring |].
    rewrite Hr, Hp, Hh. ring.
  - cbn. list_eq; ring.
  - cbn. list_eq; ring.
Qed.

(** * Further properties of refine_homographies2.py *)

(** ** Parameter nodes *)

(** [set_value] and [to_tuple] of both node classes: [set_value] takes the
    first four (six) values of its arguments and ignores the rest, keeps
    the tag, and raises [IndexError] on fewer; [to_tuple] then returns the
    values set, and setting a node to its own tuple changes nothing. *)
Theorem node_set_value_to_tuple {A : Type}
  (inode : IntrinsicsNode.t A) (enode : ExtrinsicsNode.t A) (tupl : list A) :
  ((4 <= length tupl)%nat ->
     exists n, IntrinsicsNode.set_value inode tupl = Ok n
               /\ IntrinsicsNode.to_tuple n = firstn 4 tupl
               /\ IntrinsicsNode.tag n = IntrinsicsNode.tag inode)
  /\ ((length tupl < 4)%nat -> IntrinsicsNode.set_value inode tupl = Raise IndexError)
  /\ IntrinsicsNode.set_value inode (IntrinsicsNode.to_tuple inode) = Ok inode
  /\ ((6 <= length tupl)%nat ->
        exists n, ExtrinsicsNode.set_value enode tupl = Ok n
                  /\ ExtrinsicsNode.to_tuple n = firstn 6 tupl
                  /\ ExtrinsicsNode.tag n = ExtrinsicsNode.tag enode)
  /\ ((length tupl < 6)%nat -> ExtrinsicsNode.set_value enode tupl = Raise IndexError)
  /\ ExtrinsicsNode.set_value enode (ExtrinsicsNode.to_tuple enode) = Ok enode.
Proof.
  repeat split.
  - intros Hlen.
    destruct tupl as [|t0 [|t1 [|t2 [|t3 rest]]]]; simpl in Hlen; try lia.
    eexists. repeat split.
  - intros Hlen.
    destruct tupl as [|t0 [|t1 [|t2 [|t3 rest]]]]; simpl in Hlen; try lia; reflexivity.
  - now destruct inode.
  - intros Hlen.
    destruct tupl as [|t0 [|t1 [|t2 [|t3 [|t4 [|t5 rest]]]]]]; simpl in Hlen; try lia.
    eexists. repeat split.
  - intros Hlen.
    destruct tupl as [|t0 [|t1 [|t2 [|t3 [|t4 [|t5 rest]]]]]];
      simpl in Hlen; try lia; reflexivity.
  - now destruct enode.
Qed.

(** ** The residual: sign and size *)

Lemma squares_nonneg (M : matrix) :
  Forall (fun s => 0 <= s) (ravel (mmap (fun e => e * e) M)).
Proof.
  unfold ravel, mmap. induction M as [|row M IH]; simpl; [constructor |].
  apply Forall_app_intro; [| exact IH].
  apply Forall_forall. intros s Hin. apply in_map_iff in Hin.
  destruct Hin as [e [<- _]]. nra.
Qed.

Lemma sq_unweighted_nonneg (heap : Heap R) (c : HomographyConstraint.t) :
  Forall (fun s => 0 <= s)
    (ravel (HomographyConstraint.sq_unweighted_reprojection_errors heap c)).
Proof.
  unfold HomographyConstraint.sq_unweighted_reprojection_errors.
  apply squares_nonneg.
Qed.

(** Every entry of [sq_errors] lies between zero and half the squared
    error it comes from, and is zero exactly when that squared error is:
    the robust residual never exceeds the quadratic one. *)
Theorem sq_errors_bounds (heap : Heap R) (c : HomographyConstraint.t) (i : nat) :
  let sqerr := ravel (HomographyConstraint.sq_unweighted_reprojection_errors heap c) in
  let residual := HomographyConstraint.sq_errors heap c in
  (i < length sqerr)%nat ->
  0 <= nth i sqerr 0
  /\ 0 <= nth i residual 0 <= nth i sqerr 0 / 2
  /\ (nth i residual 0 = 0 <-> nth i sqerr 0 = 0).
Proof.
  intros sqerr residual Hi.
  assert (Hs : 0 <= nth i sqerr 0).
  { pose proof (sq_unweighted_nonneg heap c) as Hall.
    rewrite Forall_forall in Hall. apply Hall. now apply nth_In. }
  assert (Hph : is_pseudo_huber 1 (nth i sqerr 0) (nth i residual 0))
    by (apply pseudo_huber_loss_nth; exact Hi).
  destruct Hph as [Hlow Hhigh].
  set (s := nth i sqerr 0) in *. set (r := nth i residual 0) in *.
  assert (Hsq : sqrt s * sqrt s = s) by now apply sqrt_sqrt.
  pose proof (sqrt_pos s) as Hroot.
  split; [exact Hs |].
  destruct (Rle_dec (sqrt s) 1) as [Hle | Hgt].
  - rewrite (Hlow Hle). split; [lra |]. split; lra.
  - rewrite (Hhigh Hgt). split; [nra |]. split; nra.
Qed.

Lemma sq_errors_bounds_witness :
  0 <= nth 3 (ravel (HomographyConstraint.sq_unweighted_reprojection_errors
                       camera_heap unit_weighted)) 0
  /\ 0 <= nth 3 (HomographyConstraint.sq_errors camera_heap unit_weighted) 0
     <= nth 3 (ravel (HomographyConstraint.sq_unweighted_reprojection_errors
                        camera_heap unit_weighted)) 0 / 2
  /\ (nth 3 (HomographyConstraint.sq_errors camera_heap unit_weighted) 0 = 0
      <-> nth 3 (ravel (HomographyConstraint.sq_unweighted_reprojection_errors
                          camera_heap unit_weighted)) 0 = 0).
Proof.
  apply (sq_errors_bounds camera_heap unit_weighted 3).
  cbn. lia.
Defined.

(** ** The state vector: intrinsics only, and vectors of the wrong length *)



Lemma reshape_rows_cases {A : Type} (v : list A) (k : nat) :
  (0 < k)%nat ->
  ((length v mod k = 0)%nat
   /\ exists rows, reshape_rows v k = Ok rows
                   /\ Forall (fun row => length row = k) rows
                   /\ concat rows = v)
  \/ ((length v mod k <> 0)%nat /\ reshape_rows v k = Raise ValueError).
Proof.
  intros Hk. unfold reshape_rows.
  destruct (Nat.eqb_spec (length v mod k) 0) as [Hz | Hnz]; [left | right; now split].
  split; [exact Hz |].
  assert (Hlen : length v = (length v / k * k)%nat).
  { pose proof (Nat.div_mod_eq (length v) k). lia. }
  destruct (chunks_rows k (length v / k) Hk (length v) v (le_n _) Hlen) as [_ Hall].
  eexists. repeat split; [exact Hall |]. now apply concat_chunks.
Qed.

Lemma set_inodes_total {A : Type} (nodes : list ref) :
  forall (rows : list (list A)) (heap : Heap A),
  Forall (fun row => length row = 4%nat) rows ->
  exists heap', ConstraintGraph.set_inodes heap nodes rows = Ok heap'.
Proof.
  induction nodes as [|n nodes IH]; intros rows heap Hrows.
  - exists heap. now destruct rows.
  - destruct rows as [|row rows]; [exists heap; reflexivity |].
    inversion Hrows as [|? ? Hrow Hrows']; subst.
    destruct row as [|a [|b [|c [|d [|e row]]]]]; try discriminate Hrow.
    simpl. apply IH. exact Hrows'.
Qed.

Lemma set_enodes_total {A : Type} (nodes : list ref) :
  forall (rows : list (list A)) (heap : Heap A),
  Forall (fun row => length row = 6%nat) rows ->
  exists heap', ConstraintGraph.set_enodes heap nodes rows = Ok heap'.
Proof.
  induction nodes as [|n nodes IH]; intros rows heap Hrows.
  - exists heap. now destruct rows.
  - destruct rows as [|row rows]; [exists heap; reflexivity |].
    inversion Hrows as [|? ? Hrow Hrows']; subst.
    destruct row as [|a [|b [|c [|d [|e [|f [|g row]]]]]]]; try discriminate Hrow.
    simpl. apply IH. exact Hrows'.
Qed.

(** [_unpack_from_vector] does not compare the length of the vector with
    the number of nodes.  It raises [ValueError] exactly when the part up
    to position 4*I is not a multiple of four long or the rest is not a
    multiple of six long; every other vector is accepted, too long or too
    short as it may be. *)
Theorem unpack_accepts_iff_divisible {A : Type}
  (heap : Heap A) (g : ConstraintGraph.t) (v : list A) :
  let I := length (ConstraintGraph.inodes g) in
  let divisible := (Nat.min (4 * I) (length v) mod 4 = 0
                    /\ (length v - 4 * I) mod 6 = 0)%nat in
  (divisible -> exists heap', ConstraintGraph._unpack_from_vector heap g v = Ok heap')
  /\ (~ divisible -> ConstraintGraph._unpack_from_vector heap g v = Raise ValueError).
Proof.
  intros I divisible. subst divisible.
  unfold ConstraintGraph._unpack_from_vector. fold I.
  destruct (reshape_rows_cases (firstn (4 * I) v) 4 ltac:(lia))
    as [(Hz4 & irows & Hri & Hi4 & _) | (Hnz4 & Hri)];
    rewrite length_firstn in *; rewrite Hri; cbn [bind].
  - destruct (reshape_rows_cases (skipn (4 * I) v) 6 ltac:(lia))
      as [(Hz6 & erows & Hre & He6 & _) | (Hnz6 & Hre)];
      rewrite length_skipn in *; rewrite Hre; cbn [bind].
    + split; [intros _ | tauto].
      destruct (set_inodes_total
                  (ConstraintGraph.values (ConstraintGraph.inodes g)) irows heap Hi4)
        as (heap1 & ->).
      cbn [bind]. now apply set_enodes_total.
    + split; [tauto | reflexivity].
  - split; [tauto | reflexivity].
Qed.

Lemma unpack_accepts_iff_divisible_witness :
  (Nat.min (4 * 1) 16 mod 4 = 0 /\ (16 - 4 * 1) mod 6 = 0)%nat
  /\ exists heap',
       ConstraintGraph._unpack_from_vector camera_heap one_of_each
         [1; 2; 3; 4; 5; 6; 7; 8; 9; 10; 11; 12; 13; 14; 15; 16]
       = Ok heap'.
Proof.
  split; [split; reflexivity |].
  apply (unpack_accepts_iff_divisible camera_heap one_of_each). split; reflexivity.
Defined.

(** ** The function handed to the solver *)

Lemma unpack_then_pack {A : Type} (heap : Heap A) (g : ConstraintGraph.t) (v : list A) :
  ConstraintGraph.inodes g <> [] ->
  ConstraintGraph.enodes g <> [] ->
  NoDup (ConstraintGraph.values (ConstraintGraph.inodes g)) ->
  NoDup (ConstraintGraph.values (ConstraintGraph.enodes g)) ->
  length v = (4 * length (ConstraintGraph.inodes g)
              + 6 * length (ConstraintGraph.enodes g))%nat ->
  exists heap',
    ConstraintGraph._unpack_from_vector heap g v = Ok heap'
    /\ ConstraintGraph._pack_into_vector heap' g = Ok v.
Proof.
  intros Hi He Hndi Hnde Hlen.
  set (I := length (ConstraintGraph.inodes g)) in *.
  set (E := length (ConstraintGraph.enodes g)) in *.
  set (ins := ConstraintGraph.values (ConstraintGraph.inodes g)) in *.
  set (ens := ConstraintGraph.values (ConstraintGraph.enodes g)) in *.
  assert (HI : length ins = I) by apply length_values.
  assert (HE : length ens = E) by apply length_values.
  destruct (reshape_rows_spec (firstn (4 * I) v) 4 I)
    as (irows & Hri & Hil & Hi4 & Hic); [lia | rewrite length_firstn; lia |].
  destruct (reshape_rows_spec (skipn (4 * I) v) 6 E)
    as (erows & Hre & Hel & He6 & Hec); [lia | rewrite length_skipn; lia |].
  destruct (set_inodes_rows ins irows heap Hi4) as (heap1 & Hset1 & He1 & _ & Hget1);
    [lia |].
  destruct (set_enodes_rows ens erows heap1 He6) as (heap2 & Hset2 & Hi2 & _ & Hget2);
    [lia |].
  exists heap2. split.
  - unfold ConstraintGraph._unpack_from_vector. fold I.
    rewrite Hri, Hre. cbn [bind]. fold ins. rewrite Hset1. cbn [bind].
    fold ens. exact Hset2.
  - rewrite pack_nonempty by assumption. fold ins. fold ens.
    rewrite (Hget2 Hnde). unfold ituples. rewrite Hi2. fold (ituples heap1 ins).
    rewrite (Hget1 Hndi), Hic, Hec. now rewrite firstn_skipn.
Qed.

(** [objective(x)] on a graph with nodes of both kinds, no node entered
    twice, and a vector of the right length: with at least one constraint
    it returns the concatenated constraint errors of the state [x], and
    leaves the graph in the state [x]; with no constraint at all it raises
    [ValueError], since [np.hstack] is given an empty list. *)
Theorem objective_evaluates_at_x (heap : Heap R) (g : ConstraintGraph.t) (x : vector) :
  ConstraintGraph.inodes g <> [] ->
  ConstraintGraph.enodes g <> [] ->
  NoDup (ConstraintGraph.values (ConstraintGraph.inodes g)) ->
  NoDup (ConstraintGraph.values (ConstraintGraph.enodes g)) ->
  length x = (4 * length (ConstraintGraph.inodes g)
              + 6 * length (ConstraintGraph.enodes g))%nat ->
  (ConstraintGraph.constraints g <> [] ->
     exists heap',
       objective heap g x
       = Ok (heap', concat (map (HomographyConstraint.sq_errors heap')
                                (ConstraintGraph.constraints g)))
       /\ ConstraintGraph._pack_into_vector heap' g = Ok x)
  /\ (ConstraintGraph.constraints g = [] -> objective heap g x = Raise ValueError).
Proof.
  intros Hi He Hndi Hnde Hlen.
  destruct (unpack_then_pack heap g x Hi He Hndi Hnde Hlen) as (heap' & Hun & Hpack).
  unfold objective. rewrite Hun. cbn [bind].
  unfold ConstraintGraph.constraint_errors. split.
  - intros Hcs. exists heap'. split; [| exact Hpack].
    rewrite hstack_nonempty by now apply map_nonempty. reflexivity.
  - intros ->. reflexivity.
Qed.

Lemma objective_evaluates_at_x_witness :
  let g := graph_of unit_weighted in
  let x := [800; 800; 320; 240; 0; 0; 1; 0; 0; 0] in
  (ConstraintGraph.constraints g <> [] ->
     exists heap',
       objective camera_heap g x
       = Ok (heap', concat (map (HomographyConstraint.sq_errors heap')
                                (ConstraintGraph.constraints g)))
       /\ ConstraintGraph._pack_into_vector heap' g = Ok x)
  /\ (ConstraintGraph.constraints g = [] -> objective camera_heap g x = Raise ValueError).
Proof.
  intros g x.
  apply (objective_evaluates_at_x camera_heap g x).
  - discriminate.
  - discriminate.
  - repeat constructor. intros [].
  - repeat constructor. intros [].
  - reflexivity.
Defined.

(** ** Arrays of any size *)

Lemma nth_map_default {X Y : Type} (f : X -> Y) (l : list X) (j : nat) (dx : X) (dy : Y) :
  (j < length l)%nat -> nth j (map f l) dy = f (nth j l dx).
Proof.
  intros Hj. rewrite (nth_indep _ dy (f dx)) by (rewrite length_map; exact Hj).
  apply map_nth.
Qed.

Lemma nth_map_seq {X : Type} (f : nat -> X) (n j : nat) (d : X) :
  (j < n)%nat -> nth j (map f (seq 0 n)) d = f j.
Proof.
  intros Hj. rewrite (nth_map_default f _ j 0%nat) by (rewrite length_seq; exact Hj).
  now rewrite seq_nth.
Qed.

Lemma length_dot A B : length (dot A B) = length A.
Proof. apply length_map. Qed.

Lemma length_transpose B : length (transpose B) = ncols B.
Proof. unfold transpose. now rewrite length_map, length_seq. Qed.

Lemma nth_transpose B j : (j < ncols B)%nat -> nth j (transpose B) [] = col B j.
Proof. intros Hj. unfold transpose. now apply nth_map_seq. Qed.

Lemma nth_dot A B i :
  (i < length A)%nat -> nth i (dot A B) [] = map (vdot (nth i A [])) (transpose B).
Proof.
  intros Hi. unfold dot.
  now rewrite (nth_map_default (fun row => map (vdot row) (transpose B)) A i []).
Qed.

Lemma length_nth_dot A B i :
  (i < length A)%nat -> length (nth i (dot A B) []) = ncols B.
Proof. intros Hi. now rewrite nth_dot, length_map, length_transpose. Qed.

(** The entry of a product: a row of the left factor against a column of
    the right one. *)
Lemma get_dot A B i j :
  (i < length A)%nat -> (j < ncols B)%nat ->
  get (dot A B) i j = vdot (nth i A []) (col B j).
Proof.
  intros Hi Hj. unfold get, getv. rewrite nth_dot by exact Hi.
  rewrite (nth_map_default (vdot (nth i A [])) _ j [])
    by (rewrite length_transpose; exact Hj).
  now rewrite nth_transpose.
Qed.

Lemma ncols_diag w : ncols (diag w) = length w.
Proof.
  unfold ncols, diag. destruct w as [|a w]; [reflexivity |].
  cbn [length seq map hd]. now rewrite length_map, length_seq.
Qed.

Lemma col_diag w j :
  (j < length w)%nat ->
  col (diag w) j
  = map (fun i => if (i =? j)%nat then getv w i else 0) (seq 0 (length w)).
Proof.
  intros Hj. unfold col, diag. rewrite map_map. apply map_ext. intros i.
  unfold getv at 1. now rewrite nth_map_seq.
Qed.

Lemma vdot_cons a u b v : vdot (a :: u) (b :: v) = a * b + vdot u v.
Proof. reflexivity. Qed.

Lemma vdot_unit_above (f : nat -> R) (j : nat) (row : vector) :
  forall k, (j < k)%nat ->
  vdot row (map (fun i => if (i =? j)%nat then f i else 0) (seq k (length row))) = 0.
Proof.
  induction row as [|a row IH]; intros k Hk; [reflexivity |].
  cbn [length seq map]. rewrite vdot_cons, IH by lia.
  destruct (Nat.eqb_spec k j); [lia | ring].
Qed.

Lemma vdot_unit (f : nat -> R) (j : nat) (row : vector) :
  forall k, (k <= j < k + length row)%nat ->
  vdot row (map (fun i => if (i =? j)%nat then f i else 0) (seq k (length row)))
  = nth (j - k) row 0 * f j.
Proof.
  induction row as [|a row IH]; intros k Hk; [simpl in Hk; lia |].
  cbn [length seq map]. rewrite vdot_cons.
  destruct (Nat.eqb_spec k j) as [-> | Hne].
  - rewrite vdot_unit_above by lia. rewrite Nat.sub_diag. simpl. ring.
  - rewrite IH by (simpl in Hk; lia).
    replace (j - k)%nat with (S (j - S k)) by lia. simpl. ring.
Qed.

(** Multiplying on the right by [np.diag(w)] scales column [j] by [w[j]]. *)
Lemma get_dot_diag A w i j :
  (i < length A)%nat -> length (nth i A []) = length w -> (j < length w)%nat ->
  get (dot A (diag w)) i j = get A i j * getv w j.
Proof.
  intros Hi Hrow Hj. rewrite get_dot by (rewrite ?ncols_diag; assumption).
  rewrite col_diag by exact Hj. rewrite <- Hrow.
  transitivity (nth (j - 0) (nth i A []) 0 * getv w j);
    [apply (vdot_unit (getv w) j (nth i A []) 0); lia |].
  now rewrite Nat.sub_0_r.
Qed.

Lemma nth_vsub u v j :
  length u = length v -> (j < length u)%nat ->
  nth j (vsub u v) 0 = nth j u 0 - nth j v 0.
Proof.
  intros Hlen Hj. unfold vsub.
  rewrite (nth_map_default _ _ j (0, 0))
    by (rewrite length_combine; lia).
  now rewrite combine_nth.
Qed.

Lemma length_vsub u v : length u = length v -> length (vsub u v) = length u.
Proof.
  intros Hlen. unfold vsub. rewrite length_map, length_combine. lia.
Qed.

(** The transpose of a list of rows of one length: its columns. *)
Lemma transpose_rows (rows : matrix) (k : nat) :
  rows <> [] -> Forall (fun row => length row = k) rows ->
  transpose rows = map (fun j => map (fun row => getv row j) rows) (seq 0 k).
Proof.
  intros Hne Hall. unfold transpose, ncols, col.
  destruct rows as [|row rows]; [congruence |].
  inversion Hall as [|? ? Hrow _]; subst. reflexivity.
Qed.

(** ** The constraint as it is built *)

Lemma points_are_pairs (corrs : list Correspondence) :
  Forall (fun c => length (source c) = 2%nat /\ length (target c) = 2%nat) corrs ->
  forall c, In c corrs ->
  exists sx sy tx ty, source c = [sx; sy] /\ target c = [tx; ty].
Proof.
  intros Hshape c Hin. rewrite Forall_forall in Hshape.
  destruct (Hshape c Hin) as [Hs Ht].
  destruct (source c) as [|sx [|sy [|? ?]]]; try discriminate Hs.
  destruct (target c) as [|tx [|ty [|? ?]]]; try discriminate Ht.
  now exists sx, sy, tx, ty.
Qed.

Lemma constraint_of_points (hmodel : HomographyModel) (inode enode : ref) :
  Forall (fun c => length (source c) = 2%nat /\ length (target c) = 2%nat)
         (_corrs hmodel) ->
  _corrs hmodel <> [] ->
  HomographyConstraint.__init__ hmodel inode enode
  = Ok {| HomographyConstraint.p_src :=
            [ map (fun c => getv (source c) 0) (_corrs hmodel);
              map (fun c => getv (source c) 1) (_corrs hmodel);
              map (fun _ => 0) (_corrs hmodel);
              map (fun _ => 1) (_corrs hmodel) ];
          HomographyConstraint.p_tgt :=
            [ map (fun c => getv (target c) 0) (_corrs hmodel);
              map (fun c => getv (target c) 1) (_corrs hmodel) ];
          HomographyConstraint.W := diag (get_correspondence_weights hmodel);
          HomographyConstraint.inode := inode;
          HomographyConstraint.enode := enode |}.
Proof.
  intros Hshape Hne. unfold HomographyConstraint.__init__.
  pose proof (points_are_pairs _ Hshape) as Hsrc.
  destruct (length (map source (_corrs hmodel))) eqn:HN.
  { rewrite length_map in HN. apply length_zero_iff_nil in HN. contradiction. }
  f_equal. f_equal.
  - rewrite (transpose_rows _ 4).
    + cbn [seq map]. rewrite !map_map.
      list_eq; apply map_ext_in; intros c Hin;
        destruct (Hsrc c Hin) as (cx & cy & ? & ? & -> & _); reflexivity.
    + intros Hnil. apply map_eq_nil in Hnil. now apply map_eq_nil in Hnil.
    + rewrite map_map. apply Forall_forall. intros row Hin.
      apply in_map_iff in Hin. destruct Hin as (c & <- & Hin).
      destruct (Hsrc c Hin) as (cx & cy & ? & ? & -> & _). reflexivity.
  - rewrite (transpose_rows _ 2).
    + cbn [seq map]. rewrite !map_map. reflexivity.
    + intros Hnil. now apply map_eq_nil in Hnil.
    + apply Forall_forall. intros row Hin.
      apply in_map_iff in Hin. destruct Hin as (c & <- & Hin).
      destruct (Hsrc c Hin) as (? & ? & cx & cy & _ & ->). reflexivity.
Qed.

(** [HomographyConstraint.__init__] on correspondences between points of
    the plane and pixels: with no correspondence it raises [ValueError];
    otherwise [p_src] has four rows, the x and y of the sources, zeros,
    and ones, [p_tgt] has two rows, the x and y of the targets, [W] is the
    diagonal matrix of the weights, and the nodes are those given. *)
Theorem constraint_init_layout (hmodel : HomographyModel) (inode enode : ref) :
  Forall (fun c => length (source c) = 2%nat /\ length (target c) = 2%nat)
         (_corrs hmodel) ->
  (_corrs hmodel = [] ->
     HomographyConstraint.__init__ hmodel inode enode = Raise ValueError)
  /\ (_corrs hmodel <> [] ->
      HomographyConstraint.__init__ hmodel inode enode
      = Ok {| HomographyConstraint.p_src :=
                [ map (fun c => getv (source c) 0) (_corrs hmodel);
                  map (fun c => getv (source c) 1) (_corrs hmodel);
                  map (fun _ => 0) (_corrs hmodel);
                  map (fun _ => 1) (_corrs hmodel) ];
              HomographyConstraint.p_tgt :=
                [ map (fun c => getv (target c) 0) (_corrs hmodel);
                  map (fun c => getv (target c) 1) (_corrs hmodel) ];
              HomographyConstraint.W := diag (get_correspondence_weights hmodel);
              HomographyConstraint.inode := inode;
              HomographyConstraint.enode := enode |}).
Proof.
  intros Hshape. split.
  - intros Hnil. unfold HomographyConstraint.__init__. now rewrite Hnil.
  - now apply constraint_of_points.
Qed.

Lemma constraint_init_layout_witness :
  let hm := {| _corrs := square_corrs; get_correspondence_weights := [1; 2; 3; 4] |} in
  Forall (fun c => length (source c) = 2%nat /\ length (target c) = 2%nat) (_corrs hm)
  /\ HomographyConstraint.__init__ hm 0%nat 0%nat = Ok ramp_weighted.
Proof.
  intros hm.
  assert (Hshape : Forall (fun c => length (source c) = 2%nat
                                    /\ length (target c) = 2%nat) (_corrs hm))
    by (repeat constructor).
  split; [exact Hshape |].
  destruct (constraint_init_layout hm 0%nat 0%nat Hshape) as [_ Hok].
  rewrite Hok by discriminate. reflexivity.
Defined.

(** ** The reprojection error, entry by entry *)

Lemma get_sq_msub (f : R -> R) (A B : matrix) (i j : nat) :
  length A = length B -> (i < length A)%nat ->
  length (nth i A []) = length (nth i B []) -> (j < length (nth i A []))%nat ->
  get (mmap f (msub A B)) i j = f (get A i j - get B i j).
Proof.
  intros Hlen Hi Hrow Hj. unfold get, getv, mmap, msub.
  rewrite (nth_map_default (map f) _ i [])
    by (rewrite length_map, length_combine; lia).
  rewrite (nth_map_default (fun ab => vsub (fst ab) (snd ab)) _ i ([], []))
    by (rewrite length_combine; lia).
  rewrite combine_nth by exact Hlen. cbn [fst snd].
  rewrite (nth_map_default f _ j 0) by (rewrite length_vsub; assumption).
  now rewrite nth_vsub.
Qed.

Lemma shape_sq_msub (f : R -> R) (A B : matrix) (n : nat) :
  length A = length B ->
  Forall (fun row => length row = n) A -> Forall (fun row => length row = n) B ->
  length (mmap f (msub A B)) = length A
  /\ Forall (fun row => length row = n) (mmap f (msub A B)).
Proof.
  intros Hlen HA HB. unfold mmap, msub. split.
  - rewrite !length_map, length_combine. lia.
  - rewrite map_map. apply Forall_forall. intros row Hin.
    apply in_map_iff in Hin. destruct Hin as ([a b] & <- & Hin).
    rewrite Forall_forall in HA, HB. cbn [fst snd].
    rewrite length_map, length_vsub.
    + apply HA. eapply in_combine_l; eassumption.
    + rewrite (HA a), (HB b);
        [reflexivity | eapply in_combine_r | eapply in_combine_l]; eassumption.
Qed.

Lemma rows_of_dot (A B : matrix) :
  Forall (fun row => length row = ncols B) (dot A B).
Proof.
  unfold dot. apply Forall_forall. intros row Hin.
  apply in_map_iff in Hin. destruct Hin as (a & <- & _).
  now rewrite length_map, length_transpose.
Qed.

(** The steps both files share: map the points through [H], divide by
    the third coordinate, subtract the targets, square. *)
Lemma projected_entries (H P4 T : matrix) (N : nat) :
  length H = 3%nat -> ncols P4 = N ->
  length T = 2%nat -> Forall (fun row => length row = N) T ->
  let p_mapped := firstn 3 (dot H P4) in
  let M := diag_recip (nth 2 p_mapped []) in
  let sq := mmap (fun e => e * e) (msub (dot (firstn 2 p_mapped) M) T) in
  length sq = 2%nat
  /\ Forall (fun row => length row = N) sq
  /\ forall i j, (i < 2)%nat -> (j < N)%nat ->
     get sq i j
     = (vdot (nth i H []) (col P4 j) * (1 / vdot (nth 2 H []) (col P4 j))
        - get T i j)
       * (vdot (nth i H []) (col P4 j) * (1 / vdot (nth 2 H []) (col P4 j))
          - get T i j).
Proof.
  intros HH HP4 HT HTr. cbv zeta.
  assert (Hpm : firstn 3 (dot H P4) = dot H P4)
    by (apply firstn_all2; rewrite length_dot; lia).
  rewrite Hpm. set (pm := dot H P4).
  assert (Hpml : length pm = 3%nat) by (subst pm; now rewrite length_dot).
  assert (Hpmr : forall i, (i < 3)%nat -> length (nth i pm []) = N).
  { intros i Hi. subst pm. rewrite length_nth_dot by lia. exact HP4. }
  set (ws := map (fun w => 1 / w) (nth 2 pm [])).
  assert (Hws : length ws = N) by (subst ws; rewrite length_map; apply Hpmr; lia).
  unfold diag_recip. fold ws.
  set (A := dot (firstn 2 pm) (diag ws)).
  assert (HA : length A = 2%nat)
    by (subst A; rewrite length_dot, length_firstn; lia).
  assert (HAr : Forall (fun row => length row = N) A).
  { subst A. rewrite <- Hws, <- ncols_diag. apply rows_of_dot. }
  destruct (shape_sq_msub (fun e => e * e) A T N) as [Hl Hr];
    [now rewrite HA, HT | exact HAr | exact HTr |].
  split; [now rewrite Hl |]. split; [exact Hr |].
  intros i j Hi Hj.
  assert (Hrow : forall (M : matrix), Forall (fun row => length row = N) M ->
            (i < length M)%nat -> length (nth i M []) = N).
  { intros M HM HiM. rewrite Forall_forall in HM. apply HM. now apply nth_In. }
  rewrite get_sq_msub;
    [| now rewrite HA, HT | lia
     | rewrite (Hrow A), (Hrow T); trivial; lia
     | rewrite (Hrow A); trivial; lia ].
  assert (Hget : forall i', (i' < 3)%nat ->
            get pm i' j = vdot (nth i' H []) (col P4 j)).
  { intros i' Hi'. subst pm. rewrite get_dot by lia. reflexivity. }
  assert (HgA : get A i j
                = vdot (nth i H []) (col P4 j) * (1 / vdot (nth 2 H []) (col P4 j))).
  { subst A. rewrite get_dot_diag;
      [| rewrite length_firstn; lia
       | rewrite nth_firstn; destruct (Nat.ltb_spec i 2); [| lia];
         rewrite Hws; apply Hpmr; lia
       | lia ].
    unfold get at 1. rewrite nth_firstn.
    destruct (Nat.ltb_spec i 2) as [_ | ?]; [| lia].
    fold (get pm i j). rewrite Hget by lia.
    unfold ws, getv.
    rewrite (nth_map_default (fun w => 1 / w) _ j 0) by (rewrite Hpmr; lia).
    fold (getv (nth 2 pm []) j). fold (get pm 2 j). now rewrite Hget by lia. }
  now rewrite HgA.
Qed.

(** [sq_unweighted_reprojection_errors] of a constraint built by
    [__init__] from N points is a 2 x N array, and its entry [i, j] is the
    squared difference between coordinate [i] of the target pixel [j] and
    the pinhole projection of the source point [j]: with [H = K.dot(E)]
    and [P = (X_j, Y_j, 0, 1)], the quotient of row [i] of [H] applied to
    [P] by row 2 of [H] applied to [P], provided that divisor is not
    zero. *)
Theorem reprojection_is_pinhole (heap : Heap R) (hmodel : HomographyModel)
  (inode enode : ref) (c : HomographyConstraint.t) :
  Forall (fun k => length (source k) = 2%nat /\ length (target k) = 2%nat)
         (_corrs hmodel) ->
  HomographyConstraint.__init__ hmodel inode enode = Ok c ->
  let N := length (_corrs hmodel) in
  let H := dot (IntrinsicsNode.to_matrix (inode_at heap inode))
               (ExtrinsicsNode.to_matrix (enode_at heap enode)) in
  let sq := HomographyConstraint.sq_unweighted_reprojection_errors heap c in
  has_shape 2 N sq = true
  /\ forall i j, (i < 2)%nat -> (j < N)%nat ->
     let k := nth j (_corrs hmodel) {| source := []; target := [] |} in
     let P := [getv (source k) 0; getv (source k) 1; 0; 1] in
     vdot (nth 2 H []) P <> 0 ->
     get sq i j
     = (vdot (nth i H []) P / vdot (nth 2 H []) P - getv (target k) i)
       * (vdot (nth i H []) P / vdot (nth 2 H []) P - getv (target k) i).
Proof.
  intros Hshape Hinit N H sq.
  assert (Hne : _corrs hmodel <> []).
  { intros Hnil. unfold HomographyConstraint.__init__ in Hinit.
    rewrite Hnil in Hinit. discriminate Hinit. }
  rewrite (constraint_of_points hmodel inode enode Hshape Hne) in Hinit.
  injection Hinit as <-.
  subst sq. unfold HomographyConstraint.sq_unweighted_reprojection_errors.
  cbn [HomographyConstraint.p_src HomographyConstraint.p_tgt
       HomographyConstraint.inode HomographyConstraint.enode].
  fold H.
  set (dflt := {| source := []; target := [] |}).
  set (P4 := [ map (fun c => getv (source c) 0) (_corrs hmodel);
               map (fun c => getv (source c) 1) (_corrs hmodel);
               map (fun _ : Correspondence => 0) (_corrs hmodel);
               map (fun _ : Correspondence => 1) (_corrs hmodel) ]).
  set (T := [ map (fun c => getv (target c) 0) (_corrs hmodel);
              map (fun c => getv (target c) 1) (_corrs hmodel) ]).
  destruct (projected_entries H P4 T N) as (Hl & Hr & Hent).
  - subst H. now rewrite length_dot.
  - unfold ncols, P4. cbn [hd]. apply length_map.
  - reflexivity.
  - subst T N. repeat constructor; apply length_map.
  - split.
    + unfold has_shape. rewrite Hl. cbn [Nat.eqb andb].
      apply forallb_forall. intros row Hin. rewrite Forall_forall in Hr.
      apply Nat.eqb_eq. now apply Hr.
    + intros i j Hi Hj.
      set (k := nth j (_corrs hmodel) dflt).
      set (P := [getv (source k) 0; getv (source k) 1; 0; 1]).
      intros Hw. rewrite (Hent i j Hi Hj).
      assert (Hcol : col P4 j = P).
      { unfold col, P4, P, k. cbn [map]. unfold getv.
        rewrite !(nth_map_default _ _ j dflt) by exact Hj. reflexivity. }
      assert (HgT : get T i j = getv (target k) i).
      { unfold get, T, k.
        destruct i as [|[|i]]; [| | lia]; cbn [nth]; unfold getv at 1;
          now rewrite (nth_map_default _ _ j dflt) by exact Hj. }
      rewrite Hcol, HgT. unfold Rdiv. ring.
Qed.

Lemma reprojection_is_pinhole_witness :
  let hm := {| _corrs := square_corrs; get_correspondence_weights := [1; 1; 1; 1] |} in
  let sq := HomographyConstraint.sq_unweighted_reprojection_errors
              camera_heap unit_weighted in
  Forall (fun k => length (source k) = 2%nat /\ length (target k) = 2%nat) (_corrs hm)
  /\ HomographyConstraint.__init__ hm 0%nat 0%nat = Ok unit_weighted
  /\ has_shape 2 4 sq = true
  /\ get sq 0 1 = 0.
Proof.
  intros hm sq.
  assert (Hshape : Forall (fun k => length (source k) = 2%nat
                                    /\ length (target k) = 2%nat) (_corrs hm))
    by (repeat constructor).
  assert (Hinit : HomographyConstraint.__init__ hm 0%nat 0%nat = Ok unit_weighted)
    by reflexivity.
  destruct (reprojection_is_pinhole camera_heap hm 0%nat 0%nat unit_weighted
              Hshape Hinit) as [Hs Hent].
  split; [exact Hshape | split; [exact Hinit | split; [exact Hs |]]].
  unfold sq. rewrite (Hent 0%nat 1%nat).
  - cbn. rewrite cos_0, sin_0. field.
  - lia.
  - cbn. lia.
  - cbn. rewrite cos_0, sin_0. lra.
Defined.

(** ** The weighted reprojection error of refine_homography.py *)






(** ** The shape check of the estimators *)

(** Each of the three estimators raises [AssertionError] exactly when some
    homography of the list is not a 3x3 array.  The shapes are checked
    before the length: a list that is too short and holds an array of
    another shape raises [AssertionError], not
    [IntrinsicsEstimationError]. *)
Theorem estimators_assert_iff_shape
  (svd : matrix -> matrix * vector * matrix)
  (homographies : list matrix) (cxy : R * R) :
  (estimate_intrinsics svd homographies = Raise AssertionError
     <-> forallb (has_shape 3 3) homographies = false)
  /\ (estimate_intrinsics_noskew svd homographies = Raise AssertionError
     <-> forallb (has_shape 3 3) homographies = false)
  /\ (estimate_intrinsics_noskew_assume_cxy svd homographies cxy
        = Raise AssertionError
     <-> forallb (has_shape 3 3) homographies = false).
Proof.
  unfold estimate_intrinsics, estimate_intrinsics_noskew,
    estimate_intrinsics_noskew_assume_cxy, _check_homographies.
  destruct (forallb (has_shape 3 3) homographies); cbn [negb bind].
  - repeat split; try discriminate; intros Hr; exfalso.
    + destruct (length homographies <? 2)%nat; [discriminate Hr |].
      cbn [bind] in Hr. apply estimate_intrinsics_tail_raises in Hr. discriminate Hr.
    + destruct (length homographies <? 2)%nat; [discriminate Hr |].
      cbn [bind] in Hr. apply estimate_intrinsics_noskew_tail_raises in Hr.
      discriminate Hr.
    + destruct (length homographies <? 1)%nat; [discriminate Hr |].
      cbn [bind] in Hr. destruct cxy as [u0 v0].
      apply estimate_intrinsics_cxy_tail_raises in Hr. discriminate Hr.
  - repeat split; reflexivity.
Qed.
